(** * Display width of Unicode text: a model of [calculate_string_length.py]

    The Python module computes the number of terminal columns a string
    occupies and cuts or pads strings to a target width.  This file embeds
    its functions in Rocq and checks the statements made about them.

    Conventions of the embedding:
    - a Python [str] is the list of its code points ([list Z]);
    - a Python [bytes] object is a [list byte];
    - a call either returns, raises, or does not finish within the fuel
      that was given to its [while] loops ([outcome]);
    - the tables of the companion module [calculate_string_length_const]
      ([UNICODE_VERSIONS], [ZERO_WIDTH_CF], [ZERO_WIDTH], [WIDE_EASTASIAN])
      are not part of the source tree and are taken as parameters, as are
      the process environment and the builtin [int]. *)

From Stdlib Require Import ZArith Lia Bool String Ascii Strings.Byte Zbitwise.
From stdpp Require Import base option list gmap.

Local Open Scope Z_scope.

(** ** Python values *)

Abbreviation str := (list Z).
Abbreviation bytes := (list byte).

(** [text: str | bytes] *)
Inductive text : Type :=
| TStr (s : str)
| TBytes (b : bytes).

(** Code points of an ASCII literal, to write Python string literals. *)
Definition lit (s : string) : str :=
  List.map (fun a => Z.of_N (N_of_ascii a)) (list_ascii_of_string s).

(** The integer value of a byte, as [b[i]] gives it. *)
Definition byte_val (b : byte) : Z := Z.of_N (Byte.to_N b).

(** The byte of an integer in [0, 256); [x00] outside (used for literals only). *)
Definition byte_of (z : Z) : byte :=
  match Byte.of_N (Z.to_N z) with Some b => b | None => x00 end.

(** ** Outcomes *)

Inductive exn : Type :=
| ValueError | IndexError | KeyError | TypeError | AssertionError.

Inductive outcome (A : Type) : Type :=
| Ret (a : A)
| Raise (e : exn)
| OutOfFuel.
Arguments Ret {A} a.
Arguments Raise {A} e.
Arguments OutOfFuel {A}.

(** Sequencing: the first exception (or exhaustion) ends the computation.
    The instances give the notation [x ← m; k]. *)
#[global] Instance outcome_ret : MRet outcome := @Ret.
#[global] Instance outcome_bind : MBind outcome := fun A B k m =>
  match m with
  | Ret a => k a
  | Raise e => Raise e
  | OutOfFuel => OutOfFuel
  end.

(** [sum(f(x) for x in l)]: the generator is consumed left to right and the
    first exception ends the sum. *)
Fixpoint sum_over {A} (f : A -> outcome Z) (l : list A) : outcome Z :=
  match l with
  | [] => Ret 0
  | x :: r => w ← f x; s ← sum_over f r; Ret (w + s)
  end.

(** ** Sequences: [len], indexing and slicing *)

Definition len {A} (l : list A) : Z := Z.of_nat (length l).

(** [l[i]]: a negative index counts from the end; out of range raises. *)
Definition py_index {A} (l : list A) (i : Z) : outcome A :=
  let j := if i <? 0 then i + len l else i in
  if (0 <=? j) && (j <? len l) then
    match l !! Z.to_nat j with
    | Some x => Ret x
    | None => Raise IndexError
    end
  else Raise IndexError.

(** A slice bound is clamped into [0, len]. *)
Definition clamp_bound (n i : Z) : Z :=
  if i <? 0 then Z.max (i + n) 0 else Z.min i n.

(** [l[lo:hi]], either bound possibly omitted. *)
Definition py_slice {A} (l : list A) (lo hi : option Z) : list A :=
  let a := match lo with Some i => clamp_bound (len l) i | None => 0 end in
  let b := match hi with Some i => clamp_bound (len l) i | None => len l end in
  take (Z.to_nat (b - a)) (drop (Z.to_nat a) l).

Definition text_len (t : text) : Z :=
  match t with TStr s => len s | TBytes b => len b end.

(** [ord(c)] for a [str]: defined on strings of length one. *)
Definition ord (c : str) : outcome Z :=
  match c with
  | [o] => Ret o
  | _ => Raise TypeError
  end.

(** [chr(o)] *)
Definition chr (o : Z) : outcome str :=
  if (0 <=? o) && (o <? 0x110000) then Ret [o] else Raise ValueError.

Definition str_eqb (a b : str) : bool := bool_decide (a = b).

(** [s.split('.')] *)
Fixpoint split_dot_aux (cur : str) (s : str) : list str :=
  match s with
  | [] => [rev cur]
  | c :: r => if c =? 46 then rev cur :: split_dot_aux [] r
              else split_dot_aux (c :: cur) r
  end.
Definition split_dot (s : str) : list str := split_dot_aux [] s.

(** Comparison of tuples of integers: lexicographic, a proper prefix is
    smaller. *)
Fixpoint tuple_ltb (a b : list Z) : bool :=
  match a, b with
  | [], [] => false
  | [], _ :: _ => true
  | _ :: _, [] => false
  | x :: a', y :: b' => if x <? y then true else if y <? x then false else tuple_ltb a' b'
  end.
Definition tuple_eqb (a b : list Z) : bool := bool_decide (a = b).
Definition tuple_leb (a b : list Z) : bool := tuple_ltb a b || tuple_eqb a b.

#[global] Instance outcome_fmap : FMap outcome := fun A B f m =>
  match m with
  | Ret a => Ret (f a)
  | Raise e => Raise e
  | OutOfFuel => OutOfFuel
  end.

(** [try: m  except Exception as e: raise E(...) from e] *)
Definition reraise_as {A} (e : exn) (m : outcome A) : outcome A :=
  match m with
  | Raise _ => Raise e
  | _ => m
  end.

(** A computation finishes when it returns or raises. *)
Definition finishes {A} (m : outcome A) : Prop := m <> OutOfFuel.

(** ** The UTF-8 decoder *)

Module Utf8.

(** [ord("?")] *)
Definition placeholder : Z := 63.

(** The four bytes [b1 .. b4] read by [_decode_one]: [b1] always, the others
    only when [lt] says that they exist, [0] otherwise. *)
Definition read4 (text : text) (pos lt : Z) : outcome (Z * Z * Z * Z) :=
  match text with
  | TStr s =>
      b1 ← py_index s pos;
      b2 ← (if lt >? 1 then py_index s (pos + 1) else Ret 0);
      b3 ← (if lt >? 2 then py_index s (pos + 2) else Ret 0);
      b4 ← (if lt >? 3 then py_index s (pos + 3) else Ret 0);
      Ret (b1, b2, b3, b4)
  | TBytes b =>
      b1 ← byte_val <$> py_index b pos;
      b2 ← (if lt >? 1 then byte_val <$> py_index b (pos + 1) else Ret 0);
      b3 ← (if lt >? 2 then byte_val <$> py_index b (pos + 2) else Ret 0);
      b4 ← (if lt >? 3 then byte_val <$> py_index b (pos + 3) else Ret 0);
      Ret (b1, b2, b3, b4)
  end.

(** The part of [_decode_one] after the [try] block, on the bytes read. *)
Definition decode_lead (b1 b2 b3 b4 lt pos : Z) : outcome (Z * Z) :=
  if Z.land b1 0x80 =? 0 then Ret (b1, pos + 1) else
  let error := (placeholder, pos + 1) in
  if lt <? 2 then Ret error else
  if Z.land b1 0xE0 =? 0xC0 then
    if negb (Z.land b2 0xC0 =? 0x80) then Ret error else
    let o := Z.lor (Z.shiftl (Z.land b1 0x1F) 6) (Z.land b2 0x3F) in
    if o <? 0x80 then Ret error else
    Ret (o, pos + 2)
  else
  if lt <? 3 then Ret error else
  if Z.land b1 0xF0 =? 0xE0 then
    if negb (Z.land b2 0xC0 =? 0x80) then Ret error else
    if negb (Z.land b3 0xC0 =? 0x80) then Ret error else
    let o := Z.lor (Z.lor (Z.shiftl (Z.land b1 0x0F) 12)
                          (Z.shiftl (Z.land b2 0x3F) 6))
                   (Z.land b3 0x3F) in
    if o <? 0x800 then Ret error else
    Ret (o, pos + 3)
  else
  if lt <? 4 then Ret error else
  if Z.land b1 0xF8 =? 0xF0 then
    if negb (Z.land b2 0xC0 =? 0x80) then Ret error else
    if negb (Z.land b3 0xC0 =? 0x80) then Ret error else
    if negb (Z.land b4 0xC0 =? 0x80) then Ret error else
    let o := Z.lor (Z.lor (Z.lor (Z.shiftl (Z.land b1 0x07) 18)
                                 (Z.shiftl (Z.land b2 0x3F) 12))
                          (Z.shiftl (Z.land b3 0x3F) 6))
                   (Z.land b4 0x3F) in
    if o <? 0x10000 then Ret error else
    Ret (o, pos + 4)
  else
  Ret error.

(** [_decode_one(text, pos)]: (ordinal at pos, next position).  Whatever the
    [try] block raises is raised again as [ValueError]. *)
Definition _decode_one (text : text) (pos : Z) : outcome (Z * Z) :=
  let lt := text_len text - pos in
  '(b1, b2, b3, b4) ← reraise_as ValueError (read4 text pos lt);
  decode_lead b1 b2 b3 b4 lt pos.

(** The builtin [bytes.decode("utf-8")] in its default strict mode: the code
    points of a well-formed UTF-8 sequence, [None] for [UnicodeDecodeError].
    Well-formed means shortest form, no surrogate, at most U+10FFFF. *)
Definition in_range (lo hi b : Z) : bool := (lo <=? b) && (b <=? hi).

Fixpoint decode_strict_aux (fuel : nat) (bs : list Z) : option (list Z) :=
  match fuel with
  | O => match bs with [] => Some [] | _ => None end
  | S k =>
    match bs with
    | [] => Some []
    | b1 :: r1 =>
      if b1 <? 0x80 then cons b1 <$> decode_strict_aux k r1
      else if in_range 0xC2 0xDF b1 then
        match r1 with
        | b2 :: r2 =>
          if in_range 0x80 0xBF b2
          then cons ((b1 - 0xC0) * 64 + (b2 - 0x80)) <$> decode_strict_aux k r2
          else None
        | _ => None
        end
      else if in_range 0xE0 0xEF b1 then
        match r1 with
        | b2 :: b3 :: r3 =>
          let lo := if b1 =? 0xE0 then 0xA0 else 0x80 in
          let hi := if b1 =? 0xED then 0x9F else 0xBF in
          if in_range lo hi b2 && in_range 0x80 0xBF b3
          then cons ((b1 - 0xE0) * 4096 + (b2 - 0x80) * 64 + (b3 - 0x80))
                 <$> decode_strict_aux k r3
          else None
        | _ => None
        end
      else if in_range 0xF0 0xF4 b1 then
        match r1 with
        | b2 :: b3 :: b4 :: r4 =>
          let lo := if b1 =? 0xF0 then 0x90 else 0x80 in
          let hi := if b1 =? 0xF4 then 0x8F else 0xBF in
          if in_range lo hi b2 && in_range 0x80 0xBF b3 && in_range 0x80 0xBF b4
          then cons ((b1 - 0xF0) * 262144 + (b2 - 0x80) * 4096
                     + (b3 - 0x80) * 64 + (b4 - 0x80))
                 <$> decode_strict_aux k r4
          else None
        | _ => None
        end
      else None
    end
  end.

Definition decode_strict (b : bytes) : option str :=
  decode_strict_aux (length b) (byte_val <$> b).

(** *** The vocabulary of UTF-8, to state what the decoder does *)

Definition in_buffer (b : bytes) (pos : Z) : Prop := 0 <= pos < len b.

(** The value of the byte at a position of the buffer, if there is one. *)
Definition byte_at (b : bytes) (i : Z) : option Z :=
  if i <? 0 then None else byte_val <$> b !! Z.to_nat i.

(** The length of the sequence that a lead byte announces: [0xxxxxxx] one
    byte, [110xxxxx] two, [1110xxxx] three, [11110xxx] four; no other byte
    is a lead byte. *)
Definition lead_length (b1 : Z) : option Z :=
  if in_range 0x00 0x7F b1 then Some 1
  else if in_range 0xC0 0xDF b1 then Some 2
  else if in_range 0xE0 0xEF b1 then Some 3
  else if in_range 0xF0 0xF7 b1 then Some 4
  else None.

(** A continuation byte is [10xxxxxx]. *)
Definition is_continuation (c : Z) : bool := in_range 0x80 0xBF c.

(** The ordinal carried by a sequence of [n] bytes: the low 5, 4 or 3 bits
    of the lead byte followed by the low 6 bits of each continuation byte. *)
Definition payload (n b1 b2 b3 b4 : Z) : Z :=
  match n with
  | 2 => (b1 mod 32) * 64 + b2 mod 64
  | 3 => ((b1 mod 16) * 64 + b2 mod 64) * 64 + b3 mod 64
  | 4 => (((b1 mod 8) * 64 + b2 mod 64) * 64 + b3 mod 64) * 64 + b4 mod 64
  | _ => b1
  end.

(** The least ordinal whose shortest encoding has [n] bytes. *)
Definition shortest_from (n : Z) : Z :=
  match n with
  | 2 => 0x80
  | 3 => 0x800
  | 4 => 0x10000
  | _ => 0
  end.

(** The byte [i] places after [pos], 0 when the buffer ends before. *)
Definition following (b : bytes) (pos i : Z) : Z :=
  default 0 (byte_at b (pos + i)).

(** The failures of decoding at [pos]: too few bytes for the announced
    length, a byte of the sequence that is not a continuation byte, an
    overlong encoding, a byte that is not a lead byte. *)
Inductive decode_failure (b : bytes) (pos : Z) : Prop :=
| fail_insufficient b1 n :
    byte_at b pos = Some b1 -> lead_length b1 = Some n ->
    len b - pos < n ->
    decode_failure b pos
| fail_continuation b1 n i c :
    byte_at b pos = Some b1 -> lead_length b1 = Some n ->
    1 <= i < n -> byte_at b (pos + i) = Some c -> is_continuation c = false ->
    decode_failure b pos
| fail_overlong b1 n :
    byte_at b pos = Some b1 -> lead_length b1 = Some n ->
    2 <= n <= len b - pos ->
    payload n b1 (following b pos 1) (following b pos 2) (following b pos 3)
      < shortest_from n ->
    decode_failure b pos
| fail_no_lead b1 :
    byte_at b pos = Some b1 -> lead_length b1 = None ->
    decode_failure b pos.

(** The decoder of one sequence written with these notions: on the values of
    four bytes, [lt] the number of bytes from [pos] to the end. *)
Definition decode_ranges (b1 b2 b3 b4 lt pos : Z) : outcome (Z * Z) :=
  let error := (placeholder, pos + 1) in
  if in_range 0x00 0x7F b1 then Ret (b1, pos + 1) else
  if lt <? 2 then Ret error else
  if in_range 0xC0 0xDF b1 then
    if negb (is_continuation b2) then Ret error else
    if payload 2 b1 b2 b3 b4 <? shortest_from 2 then Ret error else
    Ret (payload 2 b1 b2 b3 b4, pos + 2)
  else
  if lt <? 3 then Ret error else
  if in_range 0xE0 0xEF b1 then
    if negb (is_continuation b2) then Ret error else
    if negb (is_continuation b3) then Ret error else
    if payload 3 b1 b2 b3 b4 <? shortest_from 3 then Ret error else
    Ret (payload 3 b1 b2 b3 b4, pos + 3)
  else
  if lt <? 4 then Ret error else
  if in_range 0xF0 0xF7 b1 then
    if negb (is_continuation b2) then Ret error else
    if negb (is_continuation b3) then Ret error else
    if negb (is_continuation b4) then Ret error else
    if payload 4 b1 b2 b3 b4 <? shortest_from 4 then Ret error else
    Ret (payload 4 b1 b2 b3 b4, pos + 4)
  else
  Ret error.

End Utf8.

Import Utf8.

(** ** Range search *)

(** The [while ubound >= lbound] loop of [_bisearch]. *)
Fixpoint _bisearch_loop (fuel : nat) (ucs : Z) (table : list (Z * Z))
    (lbound ubound : Z) : outcome Z :=
  if ubound >=? lbound then
    match fuel with
    | O => OutOfFuel
    | S k =>
      let mid := (lbound + ubound) `div` 2 in
      e ← py_index table mid;
      if ucs >? e.2 then _bisearch_loop k ucs table (mid + 1) ubound
      else if ucs <? e.1 then _bisearch_loop k ucs table lbound (mid - 1)
      else Ret 1
    end
  else Ret 0.

(** [_bisearch(ucs, table)]: 1 if [ucs] lies in a range of [table], else 0.
    The loop halves [ubound - lbound], so [length table] rounds suffice. *)
Definition _bisearch (ucs : Z) (table : list (Z * Z)) : outcome Z :=
  let lbound := 0 in
  let ubound := len table - 1 in
  first ← py_index table 0;
  if ucs <? first.1 then Ret 0 else
  last ← py_index table ubound;
  if ucs >? last.2 then Ret 0 else
  _bisearch_loop (length table) ucs table lbound ubound.

(** ** The width functions, over the tables of the companion module *)

(** [d[k]] on a dictionary. *)
Definition dict_item {V} (d : gmap (list Z) V) (k : str) : outcome V :=
  match d !! k with
  | Some v => Ret v
  | None => Raise KeyError
  end.

(** [_byte_encoding: Literal["utf8", "narrow", "wide"]] *)
Inductive encoding : Type := utf8 | narrow | wide.

Definition encoding_eqb (a b : encoding) : bool :=
  match a, b with
  | utf8, utf8 | narrow, narrow | wide, wide => true
  | _, _ => false
  end.

(** The characters forced to two columns by [Calc_Char_Width]:
    ‘ ’ “ ” … · — 《 》 ↑ ↓ ← → *)
Definition override_set : list str :=
  [ [0x2018]; [0x2019]; [0x201C]; [0x201D]; [0x2026]; [0x00B7]; [0x2014];
    [0x300A]; [0x300B]; [0x2191]; [0x2193]; [0x2190]; [0x2192] ].

(** Iterating over a [str] yields its characters as strings of length one. *)
Definition chars (s : str) : list str := (λ c, [c]) <$> s.

(** *** Two walks over the tabulated versions

    Both take the requested tuple [g], an entry already passed and the
    entries still ahead, each with its parsed tuple. *)

(** The walk as the specification words it: the first entry whose tuple is
    not less than the requested one; the last entry if there is none
    ([latest] is the last entry). *)
Fixpoint first_not_less (g : list Z) (latest : str)
    (ahead : list (str * list Z)) : str :=
  match ahead with
  | [] => latest
  | (v, t) :: ahead' =>
    if tuple_ltb t g then first_not_less g latest ahead' else v
  end.

(** The nearest version: at the first entry whose tuple is not less than the
    requested one, that entry if the requested tuple is a prefix of its
    tuple, otherwise the entry just before it; the last entry if there is
    none. *)
Fixpoint nearest (g : list Z) (before : str) (ahead : list (str * list Z))
    : str :=
  match ahead with
  | [] => before
  | (v, t) :: ahead' =>
    if tuple_ltb t g then nearest g v ahead'
    else if bool_decide (g `prefix_of` t) then v
    else before
  end.

Section Width.

(** [UNICODE_VERSIONS], [ZERO_WIDTH_CF], [ZERO_WIDTH] and [WIDE_EASTASIAN] of
    [calculate_string_length_const]; [os.environ]; the builtin [int] on
    strings, [None] standing for [ValueError]. *)
Variable UNICODE_VERSIONS : list str.
Variable ZERO_WIDTH_CF : gset Z.
Variable ZERO_WIDTH WIDE_EASTASIAN : gmap (list Z) (list (Z * Z)).
Variable environ : gmap (list Z) (list Z).
Variable py_int : str -> option Z.

(** [tuple(map(int, parts))] *)
Fixpoint ints (parts : list str) : outcome (list Z) :=
  match parts with
  | [] => Ret []
  | p :: r =>
    match py_int p with
    | Some n => cons n <$> ints r
    | None => Raise ValueError
    end
  end.

Definition _wcversion_value (ver_string : str) : outcome (list Z) :=
  ints (split_dot ver_string).

(** The [for idx, unicode_version in enumerate(unicode_versions)] loop of
    [_wcmatch_version]; [rest] is what is left to enumerate.  Leaving the
    loop reaches [assert False]. *)
Fixpoint scan_versions (cmp_given : list Z) (latest_version : str)
    (rest : list str) (idx : Z) : outcome str :=
  match rest with
  | [] => Raise AssertionError
  | unicode_version :: rest' =>
    match py_index UNICODE_VERSIONS (idx + 1) with
    | Raise IndexError => Ret latest_version
    | Raise e => Raise e
    | OutOfFuel => OutOfFuel
    | Ret next_version =>
      cmp_next_version ← _wcversion_value next_version;
      if tuple_eqb cmp_given
           (py_slice cmp_next_version None (Some (len cmp_given)))
      then Ret next_version
      else if tuple_ltb cmp_given cmp_next_version then Ret unicode_version
      else scan_versions cmp_given latest_version rest' (idx + 1)
    end
  end.

(** [_wcmatch_version(given_version)].  The module needs Python 3 (it uses
    f-strings and annotations [str | bytes]), so [_PY3] holds, [_return_str]
    is false and no [.encode()] is applied.  [warnings.warn] is not
    modelled: it only reports. *)
Definition _wcmatch_version (given_version : str) : outcome str :=
  let unicode_versions := UNICODE_VERSIONS in
  latest_version ← py_index unicode_versions (-1);
  let given_version :=
    if str_eqb given_version (lit "auto")
    then default (lit "latest") (environ !! lit "UNICODE_VERSION")
    else given_version in
  if str_eqb given_version (lit "latest") then Ret latest_version else
  if bool_decide (given_version ∈ unicode_versions) then Ret given_version else
  match _wcversion_value given_version with
  | Raise ValueError => Ret latest_version
  | Raise e => Raise e
  | OutOfFuel => OutOfFuel
  | Ret cmp_given =>
    earliest_version ← py_index unicode_versions 0;
    cmp_earliest_version ← _wcversion_value earliest_version;
    if tuple_leb cmp_given cmp_earliest_version then Ret earliest_version else
    scan_versions cmp_given latest_version unicode_versions 0
  end.

(** [_wcwidth(wc, unicode_version='auto')] *)
Definition _wcwidth (wc : str) (unicode_version : str) : outcome Z :=
  ucs ← ord wc;
  if bool_decide (ucs ∈ ZERO_WIDTH_CF) then Ret 0 else
  if (ucs <? 32) || ((0x07F <=? ucs) && (ucs <? 0x0A0)) then Ret (-1) else
  _unicode_version ← _wcmatch_version unicode_version;
  zero_table ← dict_item ZERO_WIDTH _unicode_version;
  z ← _bisearch ucs zero_table;
  if negb (z =? 0) then Ret 0 else
  wide_table ← dict_item WIDE_EASTASIAN _unicode_version;
  w ← _bisearch ucs wide_table;
  Ret (1 + w).

(** [Calc_Char_Width(char)] *)
Definition Calc_Char_Width (char : str) : outcome Z :=
  if bool_decide (char ∈ override_set) then Ret 2 else
  width ← _wcwidth char (lit "auto");
  if width <? 0 then Ret 0 else
  Ret width.

(** The [while i < end_offs] loop of the byte-wise fallback. *)
Fixpoint decode_loop (fuel : nat) (text : text) (i end_offs sc : Z)
    : outcome Z :=
  if i <? end_offs then
    match fuel with
    | O => OutOfFuel
    | S k =>
      '(o, i') ← _decode_one text i;
      c ← chr o;
      w ← Calc_Char_Width c;
      decode_loop k text i' end_offs (sc + w)
    end
  else Ret sc.

(** [Calc_String_Width(text, start_offs=0, end_offs=None)].  In the fallback
    loop [i] grows by at least one per round, so [end_offs - start_offs]
    rounds suffice. *)
Definition Calc_String_Width (text : text) (start_offs : Z)
    (end_offs : option Z) : outcome Z :=
  if text_len text =? 0 then Ret 0 else
  let _byte_encoding := narrow in
  let end_offs := match end_offs with None => text_len text | Some e => e end in
  if start_offs >? end_offs then Raise ValueError else
  match text with
  | TStr s =>
      sum_over Calc_Char_Width
        (chars (py_slice s (Some start_offs) (Some end_offs)))
  | TBytes b =>
      if encoding_eqb _byte_encoding utf8 then
        match decode_strict (py_slice b (Some start_offs) (Some end_offs)) with
        | Some s => sum_over Calc_Char_Width (chars s)
        | None =>
            decode_loop (Z.to_nat (end_offs - start_offs)) text
              start_offs end_offs 0
        end
      else Ret (end_offs - start_offs)
  end.

(** The two [while] loops of [Cut_And_Pad_String]. *)
Fixpoint cut_loop (fuel : nat) (string : str) (length : Z) (cut_align : str)
    : outcome str :=
  w ← Calc_String_Width (TStr string) 0 None;
  if w >? length then
    match fuel with
    | O => OutOfFuel
    | S k =>
      let string :=
        if str_eqb cut_align (lit "left") then py_slice string (Some 1) None
        else if str_eqb cut_align (lit "right")
             then py_slice string None (Some (-1))
        else string in
      cut_loop k string length cut_align
    end
  else Ret string.

Fixpoint pad_loop (fuel : nat) (string : str) (length : Z)
    (pad_align pad_char : str) : outcome str :=
  w ← Calc_String_Width (TStr string) 0 None;
  if w <? length then
    match fuel with
    | O => OutOfFuel
    | S k =>
      let string :=
        if str_eqb pad_align (lit "left") then pad_char ++ string
        else if str_eqb pad_align (lit "right") then string ++ pad_char
        else string in
      pad_loop k string length pad_align pad_char
    end
  else Ret string.

(** [Cut_And_Pad_String(string, length, cut_align, pad_align, pad_char)];
    [fuel] bounds the number of rounds of its loop. *)
Definition Cut_And_Pad_String (fuel : nat) (string : str) (length : Z)
    (cut_align pad_align pad_char : str) : outcome str :=
  w ← Calc_String_Width (TStr string) 0 None;
  if w >? length then cut_loop fuel string length cut_align
  else
    w' ← Calc_String_Width (TStr string) 0 None;
    if w' <? length then pad_loop fuel string length pad_align pad_char
    else Ret string.

End Width.

(** ** A small instance of the parameters, to run the functions *)

Module Sample.

(** The version identifiers tabulated by the wcwidth tables the module was
    written against. *)
Definition versions : list str :=
  lit <$> [ "4.1.0"; "5.0.0"; "5.1.0"; "5.2.0"; "6.0.0"; "6.1.0"; "6.2.0";
            "6.3.0"; "7.0.0"; "8.0.0"; "9.0.0"; "10.0.0"; "11.0.0";
            "12.0.0"; "12.1.0"; "13.0.0"; "14.0.0"; "15.0.0" ]%string.

(** Zero-width format characters: NUL, combining grapheme joiner, zero-width
    space and joiners, directional marks, line and paragraph separators. *)
Definition zero_width_cf : gset Z :=
  list_to_set [ 0; 0x034F; 0x200B; 0x200C; 0x200D; 0x200E; 0x200F;
                0x2028; 0x2029; 0x202A; 0x202B; 0x202C; 0x202D; 0x202E;
                0x2060; 0x2061; 0x2062; 0x2063 ].

(** An excerpt of the combining ranges and of the East Asian wide ranges,
    the same for every version. *)
Definition zero_ranges : list (Z * Z) :=
  [ (0x0300, 0x036F); (0x0483, 0x0489); (0x0591, 0x05BD); (0x20D0, 0x20F0) ].
Definition wide_ranges : list (Z * Z) :=
  [ (0x1100, 0x115F); (0x2E80, 0x303E); (0x3041, 0x33FF); (0x4E00, 0x9FFF);
    (0xAC00, 0xD7A3); (0xFF00, 0xFF60) ].

Definition zero_width : gmap (list Z) (list (Z * Z)) :=
  list_to_map ((λ v, (v, zero_ranges)) <$> versions).
Definition wide_eastasian : gmap (list Z) (list (Z * Z)) :=
  list_to_map ((λ v, (v, wide_ranges)) <$> versions).

(** No [UNICODE_VERSION] in the environment. *)
Definition no_environ : gmap (list Z) (list Z) := ∅.

(** [int] on plain decimal literals: one or more ASCII digits. *)
Fixpoint digits_value (acc : Z) (s : str) : option Z :=
  match s with
  | [] => Some acc
  | c :: r => if (48 <=? c) && (c <=? 57) then digits_value (acc * 10 + (c - 48)) r
              else None
  end.
Definition int_decimal (s : str) : option Z :=
  match s with
  | [] => None
  | _ => digits_value 0 s
  end.

Definition char_width : str -> outcome Z :=
  Calc_Char_Width versions zero_width_cf zero_width wide_eastasian
    no_environ int_decimal.
Definition string_width : text -> Z -> option Z -> outcome Z :=
  Calc_String_Width versions zero_width_cf zero_width wide_eastasian
    no_environ int_decimal.
Definition fit : nat -> str -> Z -> str -> str -> str -> outcome str :=
  Cut_And_Pad_String versions zero_width_cf zero_width wide_eastasian
    no_environ int_decimal.
Definition resolve (env : gmap (list Z) (list Z)) : str -> outcome str :=
  _wcmatch_version versions env int_decimal.

(** The tuple of a version, and the tabulated versions with their tuples. *)
Definition tuple_of (v : str) : list Z :=
  match _wcversion_value int_decimal v with
  | Ret t => t
  | _ => []
  end.
Definition entries : list (str * list Z) := (λ v, (v, tuple_of v)) <$> versions.

(** The sum of the widths of the characters that a buffer encodes: the
    width of a buffer of bytes as the specification words it. *)
Definition decoded_width (b : bytes) : option (outcome Z) :=
  (λ s, sum_over char_width (chars s)) <$> decode_strict b.

End Sample.

(** ** Notions used to state further properties *)

(** [ucs] lies in a range of [table]: the linear search that [_bisearch]
    replaces. *)
Definition in_table (ucs : Z) (table : list (Z * Z)) : bool :=
  existsb (λ e, (e.1 <=? ucs) && (ucs <=? e.2)) table.

(** A table as the binary search expects it: no range is empty, and each
    range ends before the later ones start. *)
Definition table_sorted (table : list (Z * Z)) : Prop :=
  (forall e, e ∈ table -> e.1 <= e.2) /\
  (forall (i j : nat) e f,
     table !! i = Some e -> table !! j = Some f -> (i < j)%nat -> e.2 < f.1).

(** The UTF-8 encoding of a code point, as [chr(cp).encode("utf-8")] gives
    it: one to four bytes, the shortest form. *)
Definition encode_utf8 (cp : Z) : bytes :=
  if cp <? 0x80 then [byte_of cp]
  else if cp <? 0x800 then
    [byte_of (0xC0 + cp `div` 64); byte_of (0x80 + cp `mod` 64)]
  else if cp <? 0x10000 then
    [byte_of (0xE0 + cp `div` 4096); byte_of (0x80 + (cp `div` 64) `mod` 64);
     byte_of (0x80 + cp `mod` 64)]
  else
    [byte_of (0xF0 + cp `div` 262144);
     byte_of (0x80 + (cp `div` 4096) `mod` 64);
     byte_of (0x80 + (cp `div` 64) `mod` 64); byte_of (0x80 + cp `mod` 64)].

(** The width of a code point read off the tables directly: the override
    list, the zero-width format characters, the control ranges, the
    zero-width table and the wide table, in this order. *)
Definition width_class (cf : gset Z) (zero_table wide_table : list (Z * Z))
    (c : Z) : Z :=
  if bool_decide ([c] ∈ override_set) then 2
  else if bool_decide (c ∈ cf) then 0
  else if (c <? 32) || ((0x07F <=? c) && (c <? 0x0A0)) then 0
  else if in_table c zero_table then 0
  else if in_table c wide_table then 2
  else 1.

(** The sum of a list of integers. *)
Definition total (l : list Z) : Z := foldr Z.add 0 l.

(** A test for [table_sorted]. *)
Fixpoint ranges_after (bound : Z) (table : list (Z * Z)) : bool :=
  match table with
  | [] => true
  | e :: r => (bound <? e.1) && (e.1 <=? e.2) && ranges_after e.2 r
  end.
Definition table_sortedb (table : list (Z * Z)) : bool :=
  match table with
  | [] => true
  | e :: r => (e.1 <=? e.2) && ranges_after e.2 r
  end.

(** Tuples in strictly ascending order, starting above [prev]. *)
Fixpoint ascending (prev : list Z) (tuples : list (list Z)) : Prop :=
  match tuples with
  | [] => True
  | t :: r => tuple_ltb prev t = true /\ ascending t r
  end.

(** The name of the environment variable read for 'auto'. *)
Definition UNICODE_VERSION : str := lit "UNICODE_VERSION".

(** An environment that sets UNICODE_VERSION, and nothing else. *)
Definition environ_with (value : str) : gmap (list Z) (list Z) :=
  {[ UNICODE_VERSION := value ]}.

(** * Properties *)

(** ** Auxiliary facts *)

Lemma bind_ret {A B} (m : outcome A) (k : A -> outcome B) (b : B) :
  m ≫= k = Ret b -> exists a, m = Ret a /\ k a = Ret b.
Proof.
  destruct m as [a| |]; cbn; intros H; try discriminate.
  exists a; split; [reflexivity | exact H].
Qed.

Lemma str_eqb_refl (a : str) : str_eqb a a = true.
Proof. apply bool_decide_eq_true_2. reflexivity. Qed.

Lemma ret_bind {A B} (a : A) (k : A -> outcome B) : Ret a ≫= k = k a.
Proof. reflexivity. Qed.

Lemma control_not_overridden (c : Z) :
  0 <= c < 32 \/ 0x7F <= c < 0xA0 -> [c] ∉ override_set.
Proof.
  intros Hc Hin. unfold override_set in Hin.
  repeat (apply elem_of_cons in Hin as [Hin | Hin];
          [injection Hin; lia |]).
  inversion Hin.
Qed.

Lemma _bisearch_loop_bit fuel ucs table :
  forall lbound ubound r,
    _bisearch_loop fuel ucs table lbound ubound = Ret r -> r = 0 \/ r = 1.
Proof.
  induction fuel as [| k IH]; intros lbound ubound r; cbn.
  - destruct (ubound >=? lbound); [discriminate | intros [= <-]; auto].
  - destruct (ubound >=? lbound); [| intros [= <-]; auto].
    destruct (py_index table _) as [e| |]; cbn; try discriminate.
    destruct (ucs >? e.2); [apply IH |].
    destruct (ucs <? e.1); [apply IH | intros [= <-]; auto].
Qed.

Lemma _bisearch_bit ucs table r :
  _bisearch ucs table = Ret r -> r = 0 \/ r = 1.
Proof.
  unfold _bisearch.
  destruct (py_index table 0) as [e| |]; cbn; try discriminate.
  destruct (ucs <? e.1); [intros [= <-]; auto |].
  destruct (py_index table _) as [e'| |]; cbn; try discriminate.
  destruct (ucs >? e'.2); [intros [= <-]; auto |].
  apply _bisearch_loop_bit.
Qed.

Section WidthFacts.

Variable UNICODE_VERSIONS : list str.
Variable ZERO_WIDTH_CF : gset Z.
Variable ZERO_WIDTH WIDE_EASTASIAN : gmap (list Z) (list (Z * Z)).
Variable environ : gmap (list Z) (list Z).
Variable py_int : str -> option Z.

Local Abbreviation wcwidth :=
  (_wcwidth UNICODE_VERSIONS ZERO_WIDTH_CF ZERO_WIDTH WIDE_EASTASIAN
     environ py_int).
Local Abbreviation char_width :=
  (Calc_Char_Width UNICODE_VERSIONS ZERO_WIDTH_CF ZERO_WIDTH WIDE_EASTASIAN
     environ py_int).
Local Abbreviation string_width :=
  (Calc_String_Width UNICODE_VERSIONS ZERO_WIDTH_CF ZERO_WIDTH WIDE_EASTASIAN
     environ py_int).
Local Abbreviation fit :=
  (Cut_And_Pad_String UNICODE_VERSIONS ZERO_WIDTH_CF ZERO_WIDTH WIDE_EASTASIAN
     environ py_int).

(** What [_wcwidth] can return: the non-printing signal, or 0, 1, 2. *)
Lemma _wcwidth_range wc v w :
  wcwidth wc v = Ret w -> -1 <= w <= 2.
Proof.
  unfold _wcwidth. intros H.
  apply bind_ret in H as (ucs & _ & H).
  destruct (bool_decide _); [injection H; lia |].
  destruct (_ || _); [injection H; lia |].
  apply bind_ret in H as (ver & _ & H).
  apply bind_ret in H as (zt & _ & H).
  apply bind_ret in H as (z & _ & H).
  destruct (negb _); [injection H; lia |].
  apply bind_ret in H as (wt & _ & H).
  apply bind_ret in H as (b & Hb & H).
  apply _bisearch_bit in Hb. injection H. lia.
Qed.

(** The signal for a control character outside [ZERO_WIDTH_CF] is -1. *)
Lemma _wcwidth_control c v :
  0 <= c < 32 \/ 0x7F <= c < 0xA0 ->
  wcwidth [c] v = Ret (if bool_decide (c ∈ ZERO_WIDTH_CF) then 0 else -1).
Proof.
  intros Hc. unfold _wcwidth. cbn.
  destruct (bool_decide _); [reflexivity |].
  replace ((c <? 32) || ((127 <=? c) && (c <? 160))) with true; [reflexivity |].
  symmetry. destruct Hc; [apply orb_true_iff; left | apply orb_true_iff; right];
    [| apply andb_true_iff; split]; lia.
Qed.

(** The widths that [Calc_Char_Width] returns are 0, 1 and 2. *)
Lemma Calc_Char_Width_range char w : char_width char = Ret w -> 0 <= w <= 2.
Proof.
  unfold Calc_Char_Width.
  destruct (bool_decide _); [intros [= <-]; lia |].
  intros H. apply bind_ret in H as (w0 & Hw0 & H).
  apply _wcwidth_range in Hw0.
  destruct (w0 <? 0) eqn:E; injection H; lia.
Qed.

(** C8.  Every character of the override set (the quotation marks ‘ ’ “ ”,
    the ellipsis, the interpunct, the em dash, 《 》 and the four arrows) has
    width exactly 2 according to [Calc_Char_Width], whatever the tables, the
    list of versions and the environment are, hence under every Unicode
    version and also when [ZERO_WIDTH_CF] or a zero-width table contains the
    character. *)
Theorem override_width_is_two (char : str) :
  char ∈ override_set -> char_width char = Ret 2.
Proof.
  intros Hin. unfold Calc_Char_Width.
  rewrite bool_decide_eq_true_2 by exact Hin. reflexivity.
Qed.

(** C9.  A control code point, in [0, 32) or in [0x7F, 0xA0), is never in the
    override set and [Calc_Char_Width] returns 0 for it: the -1 of
    [_wcwidth] is replaced by 0.  Moreover no width returned by
    [Calc_Char_Width] is negative (it lies in {0, 1, 2}). *)
Theorem control_width_is_zero :
  (forall c, 0 <= c < 32 \/ 0x7F <= c < 0xA0 ->
             ([c] ∉ override_set) /\ char_width [c] = Ret 0) /\
  (forall char w, char_width char = Ret w -> 0 <= w <= 2).
Proof.
  split.
  - intros c Hc. split; [apply control_not_overridden, Hc |].
    unfold Calc_Char_Width.
    rewrite bool_decide_eq_false_2 by (apply control_not_overridden, Hc).
    rewrite _wcwidth_control by exact Hc.
    destruct (bool_decide _); reflexivity.
  - exact Calc_Char_Width_range.
Qed.

(** *** The string-width aggregator *)

Lemma string_width_empty t start_offs end_offs :
  text_len t = 0 -> string_width t start_offs end_offs = Ret 0.
Proof. intros H. unfold Calc_String_Width. rewrite H. reflexivity. Qed.

(** C3, as amended.  When [start_offs] exceeds [end_offs] (the length of the
    text when [end_offs] is omitted), [Calc_String_Width] raises
    [ValueError] for every non-empty text, [str] or [bytes]; for the empty
    text the test [if not text] comes first and the call returns 0. *)
Theorem string_width_invalid_range t start_offs end_offs :
  start_offs > default (text_len t) end_offs ->
  string_width t start_offs end_offs =
    if text_len t =? 0 then Ret 0 else Raise ValueError.
Proof.
  intros H. unfold Calc_String_Width.
  destruct (text_len t =? 0); [reflexivity |].
  replace (match end_offs with None => text_len t | Some e => e end)
    with (default (text_len t) end_offs) by (destruct end_offs; reflexivity).
  rewrite (proj2 (Z.gtb_gt _ _)) by lia. reflexivity.
Qed.

(** C4, as amended.  For [bytes] input the encoding tag is the constant
    ["narrow"], so the bytes are never decoded: the width of a non-empty
    buffer is [end_offs - start_offs] whatever the bytes are, [ValueError]
    when [start_offs > end_offs], and 0 for the empty buffer. *)
Theorem string_width_bytes_is_offset_difference (b : bytes) start_offs end_offs :
  string_width (TBytes b) start_offs end_offs =
    if len b =? 0 then Ret 0
    else if start_offs >? default (len b) end_offs then Raise ValueError
    else Ret (default (len b) end_offs - start_offs).
Proof.
  unfold Calc_String_Width. cbn [text_len].
  destruct (len b =? 0); [reflexivity |].
  destruct end_offs as [e |]; cbn [default]; destruct (_ >? _); reflexivity.
Qed.

(** *** Cutting and padding *)

Lemma cut_loop_eq fuel string length cut_align :
  cut_loop UNICODE_VERSIONS ZERO_WIDTH_CF ZERO_WIDTH WIDE_EASTASIAN environ
    py_int fuel string length cut_align =
  w ← string_width (TStr string) 0 None;
  if w >? length then
    match fuel with
    | O => OutOfFuel
    | S k =>
      cut_loop UNICODE_VERSIONS ZERO_WIDTH_CF ZERO_WIDTH WIDE_EASTASIAN
        environ py_int k
        (if str_eqb cut_align (lit "left") then py_slice string (Some 1) None
         else if str_eqb cut_align (lit "right")
              then py_slice string None (Some (-1))
         else string)
        length cut_align
    end
  else Ret string.
Proof. destruct fuel; reflexivity. Qed.

Lemma pad_loop_eq fuel string length pad_align pad_char :
  pad_loop UNICODE_VERSIONS ZERO_WIDTH_CF ZERO_WIDTH WIDE_EASTASIAN environ
    py_int fuel string length pad_align pad_char =
  w ← string_width (TStr string) 0 None;
  if w <? length then
    match fuel with
    | O => OutOfFuel
    | S k =>
      pad_loop UNICODE_VERSIONS ZERO_WIDTH_CF ZERO_WIDTH WIDE_EASTASIAN
        environ py_int k
        (if str_eqb pad_align (lit "left") then pad_char ++ string
         else if str_eqb pad_align (lit "right") then string ++ pad_char
         else string)
        length pad_align pad_char
    end
  else Ret string.
Proof. destruct fuel; reflexivity. Qed.

(** Widths that do not depend on the tables. *)
Lemma width_of_empty : string_width (TStr []) 0 None = Ret 0.
Proof. reflexivity. Qed.

Lemma width_of_ellipsis : string_width (TStr [0x2026]) 0 None = Ret 2.
Proof. reflexivity. Qed.

Lemma width_of_two_ellipses :
  string_width (TStr [0x2026; 0x2026]) 0 None = Ret 4.
Proof. reflexivity. Qed.

(** One round of the cutting loop, and its exit. *)
Lemma cut_loop_round k string length cut_align w :
  string_width (TStr string) 0 None = Ret w -> (w >? length) = true ->
  cut_loop UNICODE_VERSIONS ZERO_WIDTH_CF ZERO_WIDTH WIDE_EASTASIAN environ
    py_int (S k) string length cut_align =
  cut_loop UNICODE_VERSIONS ZERO_WIDTH_CF ZERO_WIDTH WIDE_EASTASIAN environ
    py_int k
    (if str_eqb cut_align (lit "left") then py_slice string (Some 1) None
     else if str_eqb cut_align (lit "right")
          then py_slice string None (Some (-1))
     else string)
    length cut_align.
Proof. intros Hw Hgt. rewrite cut_loop_eq, Hw, ret_bind, Hgt. reflexivity. Qed.

Lemma cut_loop_stop fuel string length cut_align w :
  string_width (TStr string) 0 None = Ret w -> (w >? length) = false ->
  cut_loop UNICODE_VERSIONS ZERO_WIDTH_CF ZERO_WIDTH WIDE_EASTASIAN environ
    py_int fuel string length cut_align = Ret string.
Proof. intros Hw Hgt. rewrite cut_loop_eq, Hw, ret_bind, Hgt. reflexivity. Qed.

(** C1, at the input where it fails.  Cutting the one-character string "…"
    (two columns wide under every table) to width 1 removes the character
    and returns the empty string, of width 0, from either side: the branch
    that cuts returns without padding. *)
Theorem fit_cut_wide_falls_short (k : nat) (pad_align pad_char : str) :
  fit (S k) [0x2026] 1 (lit "left") pad_align pad_char = Ret [] /\
  fit (S k) [0x2026] 1 (lit "right") pad_align pad_char = Ret [] /\
  string_width (TStr []) 0 None = Ret 0.
Proof.
  unfold Cut_And_Pad_String.
  rewrite width_of_ellipsis, ret_bind. change (2 >? 1) with true. cbv iota.
  rewrite !(cut_loop_round k [8230] 1 _ 2 width_of_ellipsis eq_refl).
  rewrite str_eqb_refl.
  change (str_eqb (lit "right") (lit "left")) with false. cbv iota.
  rewrite str_eqb_refl.
  change (py_slice [8230] (Some 1) None) with (@nil Z).
  change (py_slice [8230] None (Some (-1))) with (@nil Z).
  rewrite !(cut_loop_stop k [] 1 _ 0 width_of_empty eq_refl).
  repeat split.
Qed.

(** The width of a [str] is the sum of the widths of its characters. *)
Lemma py_slice_all {A} (l : list A) : py_slice l (Some 0) (Some (len l)) = l.
Proof.
  unfold py_slice, clamp_bound, len. cbn [Z.ltb Z.compare].
  destruct (Z.ltb_spec (Z.of_nat (length l)) 0) as [? | _]; [lia |].
  rewrite Z.min_id, Z.min_l, Z.sub_0_r by lia.
  change (Z.to_nat 0) with 0%nat. rewrite drop_0, Nat2Z.id.
  apply take_ge. lia.
Qed.

Lemma string_width_str (s : str) :
  string_width (TStr s) 0 None = sum_over char_width (chars s).
Proof.
  unfold Calc_String_Width. cbn [text_len].
  destruct (Z.eqb_spec (len s) 0) as [H0 | _].
  - destruct s; [reflexivity | unfold len in H0; cbn in H0; lia].
  - destruct (Z.gtb_spec 0 (len s)) as [? | _]; [unfold len in *; lia |].
    rewrite py_slice_all. reflexivity.
Qed.

(** A character of [ZERO_WIDTH_CF] outside the override set has width 0, and
    so has any string made of it. *)
Lemma char_width_zero_cf c :
  c ∈ ZERO_WIDTH_CF -> [c] ∉ override_set -> char_width [c] = Ret 0.
Proof.
  intros Hcf Hov. unfold Calc_Char_Width, _wcwidth.
  rewrite (bool_decide_eq_false_2 _ Hov). cbn [ord]. rewrite ret_bind.
  rewrite (bool_decide_eq_true_2 _ Hcf). reflexivity.
Qed.

Lemma width_replicate_zero c n :
  char_width [c] = Ret 0 ->
  string_width (TStr (replicate n c)) 0 None = Ret 0.
Proof.
  intros Hc. rewrite string_width_str.
  induction n as [| n IH]; [reflexivity |].
  cbn [replicate chars fmap list_fmap sum_over].
  rewrite Hc, ret_bind. unfold chars in IH. rewrite IH. reflexivity.
Qed.

Lemma pad_zero_width_forever c :
  char_width [c] = Ret 0 ->
  forall fuel n,
    pad_loop UNICODE_VERSIONS ZERO_WIDTH_CF ZERO_WIDTH WIDE_EASTASIAN environ
      py_int fuel (replicate n c) 1 (lit "right") [c] = OutOfFuel.
Proof.
  intros Hc. induction fuel as [| k IH]; intros n;
    rewrite pad_loop_eq, (width_replicate_zero c n Hc), ret_bind;
    [reflexivity |].
  change (0 <? 1) with true. cbv iota.
  change (str_eqb (lit "right") (lit "left")) with false. cbv iota.
  rewrite str_eqb_refl.
  replace (replicate n c ++ [c]) with (replicate (S n) c); [apply IH |].
  clear. induction n as [| n IHn]; [reflexivity |].
  cbn [replicate app] in *. f_equal. exact IHn.
Qed.

(** C5, at inputs where it fails.  The loops of [Cut_And_Pad_String] do not
    finish, whatever the number of rounds allowed, when
    - the string is too wide and [cut_align] is neither 'left' nor 'right',
    - the string is too narrow and [pad_align] is neither 'left' nor 'right',
    - the string is too narrow and [pad_char] is the empty string,
    - the target width is negative (here with [cut_align = 'left']),
    - the string is too narrow and [pad_char] is a character of width 0
      (here a character of [ZERO_WIDTH_CF]). *)
Theorem fit_does_not_terminate (fuel : nat) :
  fit fuel [0x2026; 0x2026] 1 (lit "center") (lit "right") (lit " ")
    = OutOfFuel /\
  fit fuel [0x2026] 5 (lit "left") (lit "center") (lit " ") = OutOfFuel /\
  fit fuel [0x2026] 5 (lit "left") (lit "right") [] = OutOfFuel /\
  fit fuel [0x2026] (-1) (lit "left") (lit "right") (lit " ") = OutOfFuel /\
  (forall c, c ∈ ZERO_WIDTH_CF -> [c] ∉ override_set ->
     fit fuel [] 1 (lit "left") (lit "right") [c] = OutOfFuel).
Proof.
  unfold Cut_And_Pad_String.
  rewrite width_of_two_ellipses, width_of_ellipsis, width_of_empty, !ret_bind.
  change (4 >? 1) with true. change (2 >? 5) with false.
  change (2 <? 5) with true. change (2 >? -1) with true.
  change (0 >? 1) with false. change (0 <? 1) with true. cbv iota.
  repeat split.
  - induction fuel as [| k IH]; rewrite cut_loop_eq, width_of_two_ellipses;
      [reflexivity | exact IH].
  - induction fuel as [| k IH]; rewrite pad_loop_eq, width_of_ellipsis;
      [reflexivity | exact IH].
  - induction fuel as [| k IH]; rewrite pad_loop_eq, width_of_ellipsis;
      [reflexivity | exact IH].
  - rewrite cut_loop_eq, width_of_ellipsis, ret_bind.
    change (2 >? -1) with true. cbv iota.
    destruct fuel as [| k]; [reflexivity |].
    rewrite str_eqb_refl.
    change (py_slice [8230] (Some 1) None) with (@nil Z).
    induction k as [| k IH]; rewrite cut_loop_eq, width_of_empty;
      [reflexivity | exact IH].
  - intros c Hcf Hov.
    apply (pad_zero_width_forever c (char_width_zero_cf c Hcf Hov) fuel 0).
Qed.

(** *** How far the result of cutting and padding is from the target

    With 'left' or 'right' alignments, a target that is not negative and a
    pad string of width 1, [Cut_And_Pad_String] returns a string whose
    width is the target or one less; it is the target whenever nothing has
    to be cut. *)

Local Abbreviation widths s := (sum_over char_width (chars s)).

Lemma widths_cons_inv c s w :
  widths (c :: s) = Ret w ->
  exists cw w', char_width [c] = Ret cw /\ widths s = Ret w' /\
                w = cw + w' /\ 0 <= cw <= 2.
Proof.
  cbn [chars fmap list_fmap sum_over]. intros H.
  apply bind_ret in H as (cw & Hcw & H).
  apply bind_ret in H as (w' & Hw' & H).
  injection H as <-. exists cw, w'.
  pose proof (Calc_Char_Width_range _ _ Hcw). auto.
Qed.

Lemma widths_cons c s cw w' :
  char_width [c] = Ret cw -> widths s = Ret w' ->
  widths (c :: s) = Ret (cw + w').
Proof.
  intros Hcw Hw'. cbn [chars fmap list_fmap sum_over].
  rewrite Hcw, ret_bind. unfold chars in Hw'. rewrite Hw'. reflexivity.
Qed.

Lemma widths_app a : forall b x y,
  widths a = Ret x -> widths b = Ret y -> widths (a ++ b) = Ret (x + y).
Proof.
  induction a as [| c a IH]; intros b x y Hx Hy.
  - injection Hx as <-. exact Hy.
  - apply widths_cons_inv in Hx as (cw & w' & Hcw & Hw' & -> & _).
    cbn [app]. rewrite (widths_cons _ _ _ _ Hcw (IH _ _ _ Hw' Hy)).
    f_equal. lia.
Qed.

Lemma widths_snoc_inv s : forall c w,
  widths (s ++ [c]) = Ret w ->
  exists cw w', char_width [c] = Ret cw /\ widths s = Ret w' /\
                w = w' + cw /\ 0 <= cw <= 2.
Proof.
  induction s as [| d s IH]; intros c w H.
  - apply widths_cons_inv in H as (cw & w' & Hcw & Hw' & -> & Hr).
    injection Hw' as <-. exists cw, 0. repeat split; try lia; assumption.
  - cbn [app] in H.
    apply widths_cons_inv in H as (dw & w1 & Hdw & Hw1 & -> & _).
    apply IH in Hw1 as (cw & w' & Hcw & Hw' & -> & Hr).
    exists cw, (dw + w'). rewrite (widths_cons _ _ _ _ Hdw Hw').
    repeat split; try lia; assumption.
Qed.

Lemma py_slice_tail {A} (c : A) (l : list A) :
  py_slice (c :: l) (Some 1) None = l.
Proof.
  unfold py_slice, clamp_bound, len. cbn [Z.ltb Z.compare length].
  rewrite Z.min_l by lia. change (Z.to_nat 1) with 1%nat. cbn [drop].
  apply take_ge. lia.
Qed.

Lemma py_slice_init {A} (l : list A) (c : A) :
  py_slice (l ++ [c]) None (Some (-1)) = l.
Proof.
  unfold py_slice, clamp_bound, len. cbn [Z.ltb Z.compare].
  rewrite length_app. cbn [length].
  rewrite Z.max_l, Z.sub_0_r by lia.
  change (Z.to_nat 0) with 0%nat. rewrite drop_0.
  replace (Z.to_nat (-1 + Z.of_nat (length l + 1))) with (length l) by lia.
  apply take_app_length.
Qed.

Lemma str_left_right : str_eqb (lit "right") (lit "left") = false.
Proof. reflexivity. Qed.

Section Fit.

Variable n : Z.
Hypothesis n_nonneg : 0 <= n.

Local Abbreviation cut :=
  (cut_loop UNICODE_VERSIONS ZERO_WIDTH_CF ZERO_WIDTH WIDE_EASTASIAN environ
     py_int).
Local Abbreviation pad :=
  (pad_loop UNICODE_VERSIONS ZERO_WIDTH_CF ZERO_WIDTH WIDE_EASTASIAN environ
     py_int).

Lemma cut_widths_stop fuel s a w :
  widths s = Ret w -> w <= n -> cut fuel s n a = Ret s.
Proof.
  intros Hw Hle. apply (cut_loop_stop fuel s n a w).
  - rewrite string_width_str. exact Hw.
  - destruct (Z.gtb_spec w n); [lia | reflexivity].
Qed.

Lemma cut_widths_round k s a w :
  widths s = Ret w -> n < w ->
  cut (S k) s n a =
  cut k (if str_eqb a (lit "left") then py_slice s (Some 1) None
         else if str_eqb a (lit "right") then py_slice s None (Some (-1))
         else s) n a.
Proof.
  intros Hw Hgt. apply (cut_loop_round k s n a w).
  - rewrite string_width_str. exact Hw.
  - destruct (Z.gtb_spec w n); [reflexivity | lia].
Qed.

(** What the cutting loop guarantees. *)
Local Abbreviation cut_result s w out :=
  (exists r w', out = Ret r /\ widths r = Ret w' /\ w' <= n /\
                (n < w -> n - 1 <= w') /\ (w <= n -> r = s)).

Lemma cut_stop fuel s a w :
  widths s = Ret w -> w <= n -> cut_result s w (cut fuel s n a).
Proof.
  intros Hw Hle. exists s, w.
  rewrite (cut_widths_stop fuel s a w Hw Hle).
  repeat split; try assumption; lia.
Qed.

Lemma cut_left_bounds s :
  forall fuel w,
    widths s = Ret w -> (length s <= fuel)%nat ->
    cut_result s w (cut fuel s n (lit "left")).
Proof.
  induction s as [| c s IH]; intros fuel w Hw Hfuel.
  - apply cut_stop; [exact Hw |]. injection Hw as <-. exact n_nonneg.
  - destruct (Z.le_gt_cases w n) as [Hle | Hgt]; [apply cut_stop; assumption |].
    destruct fuel as [| k]; [cbn in Hfuel; lia |].
    rewrite (cut_widths_round k (c :: s) _ w Hw Hgt).
    rewrite str_eqb_refl, py_slice_tail.
    apply widths_cons_inv in Hw as (cw & w0 & Hcw & Hw0 & -> & Hcw_range).
    destruct (IH k w0 Hw0) as (r & w' & -> & Hr & Hle' & Hlow & Hsame);
      [cbn in Hfuel; lia |].
    exists r, w'. repeat split; try assumption; try lia.
    intros _. destruct (Z.le_gt_cases w0 n) as [Hle0 | Hgt0]; [| lia].
    rewrite (Hsame Hle0) in Hr. rewrite Hw0 in Hr. injection Hr. lia.
Qed.

Lemma cut_right_bounds s :
  forall fuel w,
    widths s = Ret w -> (length s <= fuel)%nat ->
    cut_result s w (cut fuel s n (lit "right")).
Proof.
  induction s as [| c s IH] using rev_ind; intros fuel w Hw Hfuel.
  - apply cut_stop; [exact Hw |]. injection Hw as <-. exact n_nonneg.
  - destruct (Z.le_gt_cases w n) as [Hle | Hgt]; [apply cut_stop; assumption |].
    rewrite length_app in Hfuel. cbn [length] in Hfuel.
    destruct fuel as [| k]; [lia |].
    rewrite (cut_widths_round k (s ++ [c]) _ w Hw Hgt).
    rewrite str_left_right, str_eqb_refl, py_slice_init.
    apply widths_snoc_inv in Hw as (cw & w0 & Hcw & Hw0 & -> & Hcw_range).
    destruct (IH k w0 Hw0) as (r & w' & -> & Hr & Hle' & Hlow & Hsame);
      [lia |].
    exists r, w'. repeat split; try assumption; try lia.
    intros _. destruct (Z.le_gt_cases w0 n) as [Hle0 | Hgt0]; [| lia].
    rewrite (Hsame Hle0) in Hr. rewrite Hw0 in Hr. injection Hr. lia.
Qed.

(** The padding loop reaches the target exactly. *)
Lemma pad_exact pad_align pad_char :
  pad_align = lit "left" \/ pad_align = lit "right" ->
  widths pad_char = Ret 1 ->
  forall d s w fuel,
    widths s = Ret w -> w <= n -> Z.to_nat (n - w) = d -> (d <= fuel)%nat ->
    exists r, pad fuel s n pad_align pad_char = Ret r /\ widths r = Ret n.
Proof.
  intros Halign Hpad.
  induction d as [| d IH]; intros s w fuel Hw Hle Hd Hfuel;
    rewrite pad_loop_eq, string_width_str, Hw, ret_bind.
  - rewrite (proj2 (Z.ltb_ge w n)) by lia.
    exists s. split; [reflexivity |]. rewrite Hw. f_equal. lia.
  - rewrite (proj2 (Z.ltb_lt w n)) by lia.
    destruct fuel as [| k]; [lia |].
    destruct Halign as [-> | ->].
    + rewrite str_eqb_refl.
      apply (IH _ (1 + w)); [apply widths_app; assumption | lia | lia | lia].
    + rewrite str_left_right, str_eqb_refl.
      apply (IH _ (w + 1)); [apply widths_app; assumption | lia | lia | lia].
Qed.

(** The width of the result of [Cut_And_Pad_String]: the target or one
    less, the target when the string was not wider than it. *)
Lemma fit_width_bounds string w cut_align pad_align pad_char fuel :
  cut_align = lit "left" \/ cut_align = lit "right" ->
  pad_align = lit "left" \/ pad_align = lit "right" ->
  widths pad_char = Ret 1 ->
  widths string = Ret w ->
  (length string <= fuel)%nat -> (Z.to_nat (n - w) <= fuel)%nat ->
  exists r w',
    fit fuel string n cut_align pad_align pad_char = Ret r /\
    widths r = Ret w' /\ n - 1 <= w' <= n /\ (w <= n -> w' = n).
Proof.
  intros Hcut Halign Hpad Hw Hlen Hdiff. unfold Cut_And_Pad_String.
  rewrite string_width_str, Hw, !ret_bind.
  destruct (Z.gtb_spec w n) as [Hgt | Hle].
  - assert (cut_result string w (cut fuel string n cut_align))
      as (r & w' & -> & Hr & Hle' & Hlow & _)
      by (destruct Hcut as [-> | ->];
          [apply cut_left_bounds | apply cut_right_bounds]; assumption).
    exists r, w'. repeat split; try assumption; lia.
  - destruct (Z.ltb_spec w n) as [Hlt | Hge].
    + destruct (pad_exact pad_align pad_char Halign Hpad _ string w fuel
                  Hw Hle eq_refl Hdiff) as (r & -> & Hr).
      exists r, n. repeat split; try assumption; lia.
    + exists string, w. repeat split; try assumption; lia.
Qed.

End Fit.

End WidthFacts.

(** ** The decoder *)

Section DecoderFacts.

Lemma byte_val_range x : 0 <= byte_val x < 256.
Proof. unfold byte_val. pose proof (Byte.to_N_bounded x). lia. Qed.

(** *** Masks and shifts as arithmetic *)

Lemma land_shiftl_low x y k :
  0 <= k -> 0 <= y < 2 ^ k -> Z.land (Z.shiftl x k) y = 0.
Proof.
  intros Hk Hy. apply Z.bits_inj'. intros n Hn.
  rewrite Z.land_spec, Z.bits_0.
  destruct (Z.lt_ge_cases n k) as [Hlt | Hge].
  - rewrite Z.shiftl_spec_low by exact Hlt. reflexivity.
  - replace (Z.testbit y n) with false; [apply andb_false_r |].
    symmetry. destruct (Z.eq_dec y 0) as [-> | Hy0]; [apply Z.bits_0 |].
    apply Z.bits_above_log2; [lia |].
    apply Z.log2_lt_pow2; [lia |].
    assert (2 ^ k <= 2 ^ n) by (apply Z.pow_le_mono_r; lia). lia.
Qed.

Lemma lor_shiftl_add x y k :
  0 <= k -> 0 <= y < 2 ^ k -> Z.lor (Z.shiftl x k) y = x * 2 ^ k + y.
Proof.
  intros Hk Hy.
  pose proof (Z.add_lor_land (Z.shiftl x k) y) as H.
  rewrite land_shiftl_low in H by assumption.
  rewrite Z.shiftl_mul_pow2 in * by exact Hk. lia.
Qed.

Lemma low6 v : Z.land v 0x3F = v mod 64.
Proof. exact (Z.land_ones v 6 ltac:(lia)). Qed.
Lemma low5 v : Z.land v 0x1F = v mod 32.
Proof. exact (Z.land_ones v 5 ltac:(lia)). Qed.
Lemma low4 v : Z.land v 0x0F = v mod 16.
Proof. exact (Z.land_ones v 4 ltac:(lia)). Qed.
Lemma low3 v : Z.land v 0x07 = v mod 8.
Proof. exact (Z.land_ones v 3 ltac:(lia)). Qed.

Lemma mod64_range v : 0 <= v mod 64 < 2 ^ 6.
Proof. change (2 ^ 6) with 64. apply Z.mod_pos_bound. lia. Qed.

Lemma assemble2 b1 b2 :
  Z.lor (Z.shiftl (Z.land b1 0x1F) 6) (Z.land b2 0x3F) = payload 2 b1 b2 0 0.
Proof.
  rewrite low5, low6, lor_shiftl_add by (try lia; apply mod64_range).
  reflexivity.
Qed.

Lemma assemble3 b1 b2 b3 :
  Z.lor (Z.lor (Z.shiftl (Z.land b1 0x0F) 12) (Z.shiftl (Z.land b2 0x3F) 6))
        (Z.land b3 0x3F) = payload 3 b1 b2 b3 0.
Proof.
  change 12 with (6 + 6) at 1.
  rewrite <- Z.shiftl_shiftl, <- Z.shiftl_lor by lia.
  rewrite low4, !low6, !lor_shiftl_add by (try lia; apply mod64_range).
  reflexivity.
Qed.

Lemma assemble4 b1 b2 b3 b4 :
  Z.lor (Z.lor (Z.lor (Z.shiftl (Z.land b1 0x07) 18)
                      (Z.shiftl (Z.land b2 0x3F) 12))
               (Z.shiftl (Z.land b3 0x3F) 6))
        (Z.land b4 0x3F) = payload 4 b1 b2 b3 b4.
Proof.
  change 18 with (6 + 12) at 1.
  rewrite <- (Z.shiftl_shiftl _ 6 12), <- Z.shiftl_lor by lia.
  change 12 with (6 + 6) at 1.
  rewrite <- (Z.shiftl_shiftl _ 6 6), <- Z.shiftl_lor by lia.
  rewrite low3, !low6, !lor_shiftl_add by (try lia; apply mod64_range).
  reflexivity.
Qed.

(** The tests on the high bits, for the value of a byte. *)
Lemma mask_ascii x :
  (Z.land (byte_val x) 0x80 =? 0) = in_range 0x00 0x7F (byte_val x).
Proof. destruct x; reflexivity. Qed.
Lemma mask_lead2 x :
  (Z.land (byte_val x) 0xE0 =? 0xC0) = in_range 0xC0 0xDF (byte_val x).
Proof. destruct x; reflexivity. Qed.
Lemma mask_lead3 x :
  (Z.land (byte_val x) 0xF0 =? 0xE0) = in_range 0xE0 0xEF (byte_val x).
Proof. destruct x; reflexivity. Qed.
Lemma mask_lead4 x :
  (Z.land (byte_val x) 0xF8 =? 0xF0) = in_range 0xF0 0xF7 (byte_val x).
Proof. destruct x; reflexivity. Qed.
Lemma mask_continuation x :
  (Z.land (byte_val x) 0xC0 =? 0x80) = is_continuation (byte_val x).
Proof. destruct x; reflexivity. Qed.

Lemma decode_lead_bytes x1 x2 x3 x4 lt pos :
  decode_lead (byte_val x1) (byte_val x2) (byte_val x3) (byte_val x4) lt pos =
  decode_ranges (byte_val x1) (byte_val x2) (byte_val x3) (byte_val x4) lt pos.
Proof.
  unfold decode_lead, decode_ranges.
  rewrite mask_ascii, mask_lead2, mask_lead3, mask_lead4, !mask_continuation.
  rewrite assemble2, assemble3, assemble4. reflexivity.
Qed.

(** *** Reading the buffer *)

Lemma py_index_in_range {A} (l : list A) (i : Z) :
  0 <= i < len l ->
  exists x, l !! Z.to_nat i = Some x /\ py_index l i = Ret x.
Proof.
  intros Hi. unfold py_index.
  destruct (Z.ltb_spec i 0) as [? | _]; [lia |].
  rewrite (proj2 (Z.leb_le 0 i)), (proj2 (Z.ltb_lt i (len l))) by lia.
  destruct (lookup_lt_is_Some_2 l (Z.to_nat i)) as [x Hx];
    [unfold len in Hi; lia |].
  exists x. rewrite Hx. split; reflexivity.
Qed.

Lemma following_byte b pos i : exists x, following b pos i = byte_val x.
Proof.
  unfold following, byte_at. destruct (pos + i <? 0); [exists x00; reflexivity |].
  destruct (b !! Z.to_nat (pos + i)) as [x |]; [exists x | exists x00];
    reflexivity.
Qed.

Lemma following_at b pos i c :
  byte_at b (pos + i) = Some c -> following b pos i = c.
Proof. unfold following. intros ->. reflexivity. Qed.

Lemma read_following (b : bytes) pos i :
  0 <= pos -> 0 <= i ->
  (if len b - pos >? i then byte_val <$> py_index b (pos + i) else Ret 0)
  = Ret (following b pos i).
Proof.
  intros Hpos Hi. unfold following, byte_at.
  destruct (Z.ltb_spec (pos + i) 0) as [? | _]; [lia |].
  destruct (Z.gtb_spec (len b - pos) i) as [Hlt | Hge].
  - destruct (py_index_in_range b (pos + i)) as (x & Hx & ->); [lia |].
    rewrite Hx. reflexivity.
  - rewrite lookup_ge_None_2 by (unfold len in Hge; lia). reflexivity.
Qed.

Lemma read4_bytes (b : bytes) pos :
  in_buffer b pos ->
  read4 (TBytes b) pos (len b - pos) =
  Ret (following b pos 0, following b pos 1,
       following b pos 2, following b pos 3).
Proof.
  intros [Hpos Hlen]. unfold read4.
  rewrite !read_following by lia.
  replace (byte_val <$> py_index b pos) with (Ret (following b pos 0)).
  - reflexivity.
  - rewrite <- (read_following b pos 0) by lia.
    rewrite (proj2 (Z.gtb_gt _ _)) by lia. rewrite Z.add_0_r. reflexivity.
Qed.

(** On a buffer of bytes, at a position inside it, [_decode_one] is the
    decoder written with byte ranges. *)
Lemma _decode_one_ranges (b : bytes) pos :
  in_buffer b pos ->
  _decode_one (TBytes b) pos =
  decode_ranges (following b pos 0) (following b pos 1)
    (following b pos 2) (following b pos 3) (len b - pos) pos.
Proof.
  intros Hin. unfold _decode_one. cbn [text_len].
  rewrite read4_bytes by exact Hin. cbn [reraise_as]. rewrite ret_bind.
  destruct (following_byte b pos 0) as [x1 ->].
  destruct (following_byte b pos 1) as [x2 ->].
  destruct (following_byte b pos 2) as [x3 ->].
  destruct (following_byte b pos 3) as [x4 ->].
  apply decode_lead_bytes.
Qed.

Lemma following_range b pos i : 0 <= following b pos i < 256.
Proof. destruct (following_byte b pos i) as [x ->]. apply byte_val_range. Qed.

(** Case analysis on the range tests of the goal and of the hypotheses. *)
Ltac split_ranges :=
  unfold decode_ranges, lead_length, is_continuation, in_range,
    shortest_from in *;
  repeat match goal with
    | H : context [?a <=? ?b] |- _ =>
        destruct (Z.leb_spec a b); cbn [andb negb] in H
    | |- context [?a <=? ?b] => destruct (Z.leb_spec a b); cbn [andb negb]
    | |- context [?a <? ?b] => destruct (Z.ltb_spec a b); cbn [andb negb]
    end;
  try discriminate; try reflexivity; try lia.

(** The four kinds of failure, on the decoder written with ranges. *)
Lemma ranges_insufficient b1 b2 b3 b4 lt pos n :
  lead_length b1 = Some n -> 1 <= lt < n ->
  decode_ranges b1 b2 b3 b4 lt pos = Ret (63, pos + 1).
Proof. intros Hn Hlt. split_ranges; injection Hn; lia. Qed.

Lemma ranges_continuation b1 b2 b3 b4 lt pos n :
  lead_length b1 = Some n ->
  (2 <= n /\ is_continuation b2 = false) \/
  (3 <= n /\ is_continuation b3 = false) \/
  (4 <= n /\ is_continuation b4 = false) ->
  decode_ranges b1 b2 b3 b4 lt pos = Ret (63, pos + 1).
Proof.
  intros Hn Hbad. unfold decode_ranges, lead_length in *.
  change placeholder with 63.
  destruct (in_range 0 127 b1); [injection Hn; lia |].
  destruct (lt <? 2); [reflexivity |].
  destruct (in_range 192 223 b1).
  { injection Hn as <-.
    destruct (is_continuation b2); cbn [negb]; [| reflexivity].
    destruct Hbad as [[_ H] | [[? _] | [? _]]]; [discriminate | lia | lia]. }
  destruct (lt <? 3); [reflexivity |].
  destruct (in_range 224 239 b1).
  { injection Hn as <-.
    destruct (is_continuation b2), (is_continuation b3); cbn [negb];
      try reflexivity.
    destruct Hbad as [[_ H] | [[_ H] | [? _]]];
      [discriminate | discriminate | lia]. }
  destruct (lt <? 4); [reflexivity |].
  destruct (in_range 240 247 b1); [| reflexivity].
  destruct (is_continuation b2), (is_continuation b3), (is_continuation b4);
    cbn [negb]; try reflexivity.
  destruct Hbad as [[_ H] | [[_ H] | [_ H]]]; discriminate.
Qed.

Lemma ranges_overlong b1 b2 b3 b4 lt pos n :
  lead_length b1 = Some n -> 2 <= n ->
  payload n b1 b2 b3 b4 < shortest_from n ->
  decode_ranges b1 b2 b3 b4 lt pos = Ret (63, pos + 1).
Proof.
  intros Hn Hn2 Hlow. unfold decode_ranges, lead_length in *.
  change placeholder with 63.
  destruct (in_range 0 127 b1); [injection Hn; lia |].
  destruct (lt <? 2); [reflexivity |].
  destruct (in_range 192 223 b1).
  { injection Hn as <-. destruct (negb _); [reflexivity |].
    rewrite (proj2 (Z.ltb_lt _ _) Hlow). reflexivity. }
  destruct (lt <? 3); [reflexivity |].
  destruct (in_range 224 239 b1).
  { injection Hn as <-. repeat (destruct (negb _); [reflexivity |]).
    rewrite (proj2 (Z.ltb_lt _ _) Hlow). reflexivity. }
  destruct (lt <? 4); [reflexivity |].
  destruct (in_range 240 247 b1); [| reflexivity].
  injection Hn as <-. repeat (destruct (negb _); [reflexivity |]).
  rewrite (proj2 (Z.ltb_lt _ _) Hlow). reflexivity.
Qed.

Lemma ranges_no_lead b1 b2 b3 b4 lt pos :
  lead_length b1 = None ->
  decode_ranges b1 b2 b3 b4 lt pos = Ret (63, pos + 1).
Proof.
  intros Hn. unfold decode_ranges, lead_length in *.
  repeat (destruct (in_range _ _ b1); [discriminate |]).
  repeat (destruct (_ <? _); [reflexivity |]). reflexivity.
Qed.

Lemma lead_length_range b1 n : lead_length b1 = Some n -> 1 <= n <= 4.
Proof.
  unfold lead_length.
  repeat (destruct (in_range _ _ _); [intros [= <-]; lia |]). discriminate.
Qed.

(** C6.  At a position inside a buffer of bytes, whenever decoding fails
    (not enough bytes left for the length that the lead byte announces, a
    byte of the sequence that is not of the form 10xxxxxx, an overlong
    encoding, or a first byte that matches no lead pattern) [_decode_one]
    returns the ordinal of '?' and the position advanced by one. *)
Theorem decode_failure_gives_placeholder (b : bytes) (pos : Z) :
  in_buffer b pos -> decode_failure b pos ->
  _decode_one (TBytes b) pos = Ret (63, pos + 1).
Proof.
  intros Hin Hfail. rewrite _decode_one_ranges by exact Hin.
  destruct Hin as [Hpos Hlen].
  destruct Hfail as [b1 n H1 Hn Hlt | b1 n i c H1 Hn Hi Hc Hbad
                    | b1 n H1 Hn Hlen' Hlow | b1 H1 Hn];
    rewrite <- (Z.add_0_r pos) in H1; apply following_at in H1; subst b1.
  - apply (ranges_insufficient _ _ _ _ _ _ n Hn). lia.
  - apply following_at in Hc. subst c.
    pose proof (lead_length_range _ _ Hn) as Hrange.
    apply (ranges_continuation _ _ _ _ _ _ n Hn).
    assert (i = 1 \/ i = 2 \/ i = 3) as [-> | [-> | ->]] by lia;
      [left | right; left | right; right]; (split; [lia | exact Hbad]).
  - apply (ranges_overlong _ _ _ _ _ _ n Hn); [lia | exact Hlow].
  - apply ranges_no_lead, Hn.
Qed.

(** The overlong encoding of NUL: a placeholder, one byte consumed. *)
Lemma decode_failure_gives_placeholder_c0_80 :
  in_buffer [xc0; x80] 0 /\ decode_failure [xc0; x80] 0 /\
  _decode_one (TBytes [xc0; x80]) 0 = Ret (63, 0 + 1).
Proof.
  assert (in_buffer [xc0; x80] 0) as Hin by (unfold in_buffer, len; cbn; lia).
  assert (decode_failure [xc0; x80] 0) as Hfail.
  { apply (fail_overlong _ _ 0xC0 2); [reflexivity | reflexivity | | ].
    - unfold len; cbn; lia.
    - vm_compute. reflexivity. }
  split; [exact Hin |]. split; [exact Hfail |].
  exact (decode_failure_gives_placeholder [xc0; x80] 0 Hin Hfail).
Defined.

Lemma byte_at_in_buffer b i c : byte_at b i = Some c -> in_buffer b i.
Proof.
  unfold byte_at, in_buffer, len.
  destruct (Z.ltb_spec i 0) as [? | Hi]; [discriminate |].
  destruct (b !! Z.to_nat i) as [x |] eqn:Hx; [| discriminate].
  intros _. apply lookup_lt_Some in Hx. lia.
Qed.

(** C10.  A lead byte 0xF5, 0xF6 or 0xF7 followed by three continuation
    bytes is decoded as a sequence of four bytes: [_decode_one] returns the
    ordinal carried by the sequence, which is above U+10FFFF, and the
    position advanced by four, not the placeholder.  Nor is the surrogate
    range excluded: ED A0 80 decodes to U+D800. *)
Theorem decode_accepts_above_unicode_maximum :
  (forall (b : bytes) pos b1 c2 c3 c4,
     byte_at b pos = Some b1 -> 0xF5 <= b1 <= 0xF7 ->
     byte_at b (pos + 1) = Some c2 -> is_continuation c2 = true ->
     byte_at b (pos + 2) = Some c3 -> is_continuation c3 = true ->
     byte_at b (pos + 3) = Some c4 -> is_continuation c4 = true ->
     _decode_one (TBytes b) pos = Ret (payload 4 b1 c2 c3 c4, pos + 4) /\
     0x10FFFF < payload 4 b1 c2 c3 c4) /\
  _decode_one (TBytes [xed; xa0; x80]) 0 = Ret (0xD800, 3).
Proof.
  split; [| reflexivity].
  intros b pos b1 c2 c3 c4 H1 Hb1 H2 Hc2 H3 Hc3 H4 Hc4.
  pose proof (byte_at_in_buffer _ _ _ H1) as [Hpos _].
  pose proof (byte_at_in_buffer _ _ _ H4) as [_ Hlen].
  assert (0x10FFFF < payload 4 b1 c2 c3 c4) as Hbig.
  { unfold payload. Z.div_mod_to_equations. lia. }
  split; [| exact Hbig].
  rewrite _decode_one_ranges by (unfold in_buffer; lia).
  rewrite <- (Z.add_0_r pos) in H1.
  rewrite (following_at _ _ _ _ H1), (following_at _ _ _ _ H2),
    (following_at _ _ _ _ H3), (following_at _ _ _ _ H4).
  unfold decode_ranges. rewrite Hc2, Hc3, Hc4. cbn [negb].
  rewrite (proj2 (Z.ltb_ge (payload 4 b1 c2 c3 c4) (shortest_from 4)))
    by (unfold shortest_from; lia).
  unfold in_range.
  repeat match goal with
    | |- context [?x <=? ?y] => destruct (Z.leb_spec x y); cbn [andb]
    | |- context [?x <? ?y] => destruct (Z.ltb_spec x y)
    end; try lia; reflexivity.
Qed.

(** The bytes F7 BF BF BF decode to the ordinal 0x1FFFFF, four bytes on. *)
Lemma decode_accepts_above_unicode_maximum_f7 :
  _decode_one (TBytes [xf7; xbf; xbf; xbf]) 0 = Ret (0x1FFFFF, 0 + 4) /\
  0x10FFFF < 0x1FFFFF.
Proof.
  exact (proj1 decode_accepts_above_unicode_maximum
           [xf7; xbf; xbf; xbf] 0 0xF7 0xBF 0xBF 0xBF
           eq_refl ltac:(lia) eq_refl eq_refl eq_refl eq_refl eq_refl eq_refl).
Defined.

End DecoderFacts.

(** ** Version resolution *)

(** *** Tuples of integers *)

Lemma tuple_ltb_irrefl a : tuple_ltb a a = false.
Proof.
  induction a as [| x a IH]; [reflexivity |]. cbn.
  rewrite Z.ltb_irrefl. exact IH.
Qed.

Lemma tuple_ltb_asym a : forall b, tuple_ltb a b = true -> tuple_ltb b a = false.
Proof.
  induction a as [| x a IH]; intros [| y b]; cbn; try congruence.
  destruct (Z.ltb_spec x y), (Z.ltb_spec y x); try congruence; try lia.
  apply IH.
Qed.

Lemma tuple_ltb_total a :
  forall b, tuple_ltb a b = false -> a <> b -> tuple_ltb b a = true.
Proof.
  induction a as [| x a IH]; intros [| y b]; cbn; try congruence.
  destruct (Z.ltb_spec x y), (Z.ltb_spec y x); try congruence; try lia.
  intros Hlt Hne. apply IH; [exact Hlt |].
  intros ->. apply Hne. f_equal. lia.
Qed.

Lemma tuple_ltb_prefix g : forall t, g `prefix_of` t -> tuple_ltb t g = false.
Proof.
  induction g as [| x g IH]; intros t [k ->]; cbn.
  - destruct k; reflexivity.
  - rewrite Z.ltb_irrefl. apply IH. exists k. reflexivity.
Qed.

Lemma py_slice_take {A} (t : list A) (n : nat) :
  py_slice t None (Some (Z.of_nat n)) = take n t.
Proof.
  unfold py_slice, clamp_bound, len.
  destruct (Z.ltb_spec (Z.of_nat n) 0) as [? | _]; [lia |].
  rewrite Z.sub_0_r. change (Z.to_nat 0) with 0%nat. rewrite drop_0.
  destruct (Z.min_spec (Z.of_nat n) (Z.of_nat (length t))) as [[? ->] | [? ->]].
  - rewrite Nat2Z.id. reflexivity.
  - rewrite Nat2Z.id, !take_ge by lia. reflexivity.
Qed.

(** The test [cmp_given == cmp_next_version[:len(cmp_given)]] is the prefix
    test. *)
Lemma prefix_test g t :
  tuple_eqb g (py_slice t None (Some (len g))) = bool_decide (g `prefix_of` t).
Proof.
  unfold tuple_eqb, len. rewrite py_slice_take.
  apply bool_decide_ext. split.
  - intros H. exists (drop (length g) t). rewrite H at 1. symmetry.
    apply take_drop.
  - intros [k ->]. symmetry. apply take_app_length.
Qed.

(** *** Indexing *)

Lemma py_index_nat {A} (l : list A) (i : nat) x :
  l !! i = Some x -> py_index l (Z.of_nat i) = Ret x.
Proof.
  intros Hx. pose proof (lookup_lt_Some _ _ _ Hx) as Hlt.
  destruct (py_index_in_range l (Z.of_nat i)) as (y & Hy & ->);
    [unfold len; lia |].
  rewrite Nat2Z.id in Hy. congruence.
Qed.

Lemma py_index_first {A} (l : list A) x :
  l !! 0%nat = Some x -> py_index l 0 = Ret x.
Proof. apply (py_index_nat l 0). Qed.

Lemma py_index_beyond {A} (l : list A) (i : Z) :
  len l <= i -> py_index l i = Raise IndexError.
Proof.
  intros Hi. unfold py_index. unfold len in *.
  destruct (Z.ltb_spec i 0) as [? | _]; [lia |].
  rewrite (proj2 (Z.ltb_ge i _)) by lia. rewrite andb_false_r. reflexivity.
Qed.

Lemma py_index_last {A} (l : list A) x :
  last l = Some x -> py_index l (-1) = Ret x.
Proof.
  intros Hx. rewrite last_lookup in Hx.
  pose proof (lookup_lt_Some _ _ _ Hx) as Hlt.
  unfold py_index, len. cbn [Z.ltb Z.compare].
  rewrite (proj2 (Z.leb_le 0 _)), (proj2 (Z.ltb_lt _ _)) by lia.
  replace (Z.to_nat (-1 + Z.of_nat (length l))) with (pred (length l)) by lia.
  rewrite Hx. reflexivity.
Qed.

Section VersionFacts.

Variable UNICODE_VERSIONS : list str.
Variable environ : gmap (list Z) (list Z).
Variable py_int : str -> option Z.

Local Abbreviation version_value := (_wcversion_value py_int).
Local Abbreviation scan := (scan_versions UNICODE_VERSIONS py_int).
Local Abbreviation resolve := (_wcmatch_version UNICODE_VERSIONS environ py_int).

(** Parsing returns or raises [ValueError]. *)
Lemma ints_outcome parts :
  (exists t, ints py_int parts = Ret t) \/ ints py_int parts = Raise ValueError.
Proof.
  induction parts as [| p r IH]; cbn; [left; eexists; reflexivity |].
  destruct (py_int p); [| right; reflexivity].
  destruct IH as [[t ->] | ->]; [left; eexists |right]; reflexivity.
Qed.

Lemma version_value_outcome v :
  (exists t, version_value v = Ret t) \/ version_value v = Raise ValueError.
Proof. apply ints_outcome. Qed.

(** One round of the loop when there is a next entry, and the last round. *)
Lemma scan_next g latest u rest (i : nat) v t :
  UNICODE_VERSIONS !! S i = Some v -> version_value v = Ret t ->
  scan g latest (u :: rest) (Z.of_nat i) =
    if bool_decide (g `prefix_of` t) then Ret v
    else if tuple_ltb g t then Ret u
    else scan g latest rest (Z.of_nat (S i)).
Proof.
  intros Hv Ht. cbn [scan_versions].
  replace (Z.of_nat i + 1) with (Z.of_nat (S i)) by lia.
  rewrite (py_index_nat _ _ _ Hv), Ht, ret_bind, prefix_test. reflexivity.
Qed.

Lemma scan_end g latest u rest (i : nat) :
  UNICODE_VERSIONS !! S i = None ->
  scan g latest (u :: rest) (Z.of_nat i) = Ret latest.
Proof.
  intros Hv. cbn [scan_versions].
  rewrite py_index_beyond; [reflexivity |].
  apply lookup_ge_None_1 in Hv. unfold len. lia.
Qed.

(** The loop computes the nearest version. *)
Lemma scan_nearest g latest :
  last UNICODE_VERSIONS = Some latest ->
  forall rest tuples,
    Forall2 (λ v t, version_value v = Ret t) rest tuples ->
    forall u (i : nat),
      drop i UNICODE_VERSIONS = u :: rest ->
      scan g latest (u :: rest) (Z.of_nat i) =
        Ret (nearest g u (zip rest tuples)).
Proof.
  intros Hlast rest tuples Hall.
  induction Hall as [| v t rest tuples Hv Hall IH]; intros u i Hdrop.
  - rewrite scan_end.
    + cbn. f_equal.
      rewrite <- (take_drop i UNICODE_VERSIONS), Hdrop, last_snoc in Hlast.
      congruence.
    + apply lookup_ge_None_2.
      apply (f_equal length) in Hdrop. rewrite length_drop in Hdrop.
      cbn in Hdrop. lia.
  - assert (UNICODE_VERSIONS !! S i = Some v) as Hnext.
    { rewrite <- (Nat.add_1_r i), <- lookup_drop, Hdrop. reflexivity. }
    assert (drop (S i) UNICODE_VERSIONS = v :: rest) as Hdrop'.
    { rewrite <- (Nat.add_1_r i), <- drop_drop, Hdrop. reflexivity. }
    rewrite (scan_next _ _ _ _ _ _ _ Hnext Hv). cbn [zip zip_with nearest].
    destruct (tuple_ltb t g) eqn:Hlt.
    + rewrite bool_decide_eq_false_2.
      * rewrite (tuple_ltb_asym _ _ Hlt). apply IH, Hdrop'.
      * intros Hpre. apply tuple_ltb_prefix in Hpre. congruence.
    + destruct (bool_decide (g `prefix_of` t)) eqn:Hpre; [reflexivity |].
      rewrite (tuple_ltb_total _ _ Hlt); [reflexivity |].
      intros ->. apply bool_decide_eq_false_1 in Hpre. apply Hpre. reflexivity.
Qed.

Lemma scan_from_start g latest earliest rest tuples :
  UNICODE_VERSIONS = earliest :: rest ->
  last UNICODE_VERSIONS = Some latest ->
  Forall2 (λ v t, version_value v = Ret t) rest tuples ->
  scan g latest (earliest :: rest) 0 = Ret (nearest g earliest (zip rest tuples)).
Proof.
  intros Hvs Hlast Hall.
  apply (scan_nearest g latest Hlast rest tuples Hall earliest 0%nat).
  rewrite Hvs. reflexivity.
Qed.

Lemma nearest_elem g : forall ahead before,
  nearest g before ahead ∈ before :: ahead.*1.
Proof.
  induction ahead as [| [v t] ahead IH]; intros before; cbn.
  - apply list_elem_of_here.
  - destruct (tuple_ltb t g).
    + apply list_elem_of_further, IH.
    + destruct (bool_decide _);
        [apply list_elem_of_further, list_elem_of_here | apply list_elem_of_here].
Qed.

Lemma scan_never_asserts g latest :
  forall rest u (i : nat),
    drop i UNICODE_VERSIONS = u :: rest ->
    scan g latest (u :: rest) (Z.of_nat i) <> Raise AssertionError.
Proof.
  induction rest as [| v rest IH]; intros u i Hdrop.
  - rewrite scan_end; [discriminate |].
    apply lookup_ge_None_2.
    apply (f_equal length) in Hdrop. rewrite length_drop in Hdrop.
    cbn in Hdrop. lia.
  - assert (UNICODE_VERSIONS !! S i = Some v) as Hnext.
    { rewrite <- (Nat.add_1_r i), <- lookup_drop, Hdrop. reflexivity. }
    assert (drop (S i) UNICODE_VERSIONS = v :: rest) as Hdrop'.
    { rewrite <- (Nat.add_1_r i), <- drop_drop, Hdrop. reflexivity. }
    destruct (version_value_outcome v) as [[t Ht] | Ht].
    + rewrite (scan_next _ _ _ _ _ _ _ Hnext Ht).
      destruct (bool_decide _); [discriminate |].
      destruct (tuple_ltb g t); [discriminate |]. apply IH, Hdrop'.
    + cbn [scan_versions].
      replace (Z.of_nat i + 1) with (Z.of_nat (S i)) by lia.
      rewrite (py_index_nat _ _ _ Hnext), Ht. discriminate.
Qed.

Lemma parsed_tuples (vs : list str) :
  (forall v, v ∈ vs -> exists t, version_value v = Ret t) ->
  exists tuples, Forall2 (λ v t, version_value v = Ret t) vs tuples.
Proof.
  induction vs as [| v vs IH]; intros Hall; [exists []; constructor |].
  destruct (Hall v) as [t Ht]; [apply list_elem_of_here |].
  destruct IH as [ts Hts].
  { intros w Hw. apply Hall, list_elem_of_further, Hw. }
  exists (t :: ts). constructor; assumption.
Qed.

(** C2, as amended.  For a requested string that parses to the tuple [g],
    is not a tabulated version and whose tuple is greater than that of the
    earliest version, [_wcmatch_version] walks the versions in order up to
    the first one whose tuple is not less than [g]: it returns that version
    when [g] is a prefix of its tuple and otherwise the version just before
    it (the nearest lower one); when every tuple is less than [g] it returns
    the latest version. *)
Theorem wcmatch_version_nearest given g earliest t0 rest tuples :
  UNICODE_VERSIONS = earliest :: rest ->
  given <> lit "auto" -> given <> lit "latest" ->
  given ∉ UNICODE_VERSIONS ->
  version_value given = Ret g ->
  version_value earliest = Ret t0 ->
  Forall2 (λ v t, version_value v = Ret t) rest tuples ->
  tuple_ltb t0 g = true ->
  resolve given = Ret (nearest g earliest (zip rest tuples)).
Proof.
  intros Hvs Hauto Hlatest Hmem Hg Ht0 Hall Hlt.
  destruct (last UNICODE_VERSIONS) as [latest |] eqn:Hlast;
    [| apply last_None in Hlast; congruence].
  unfold _wcmatch_version.
  rewrite (py_index_last _ _ Hlast), ret_bind.
  unfold str_eqb. rewrite (bool_decide_eq_false_2 _ Hauto).
  rewrite (bool_decide_eq_false_2 _ Hlatest), (bool_decide_eq_false_2 _ Hmem).
  rewrite Hg.
  rewrite (py_index_first UNICODE_VERSIONS earliest)
    by (rewrite Hvs; reflexivity).
  rewrite ret_bind, Ht0, ret_bind.
  unfold tuple_leb, tuple_eqb.
  rewrite (tuple_ltb_asym _ _ Hlt), bool_decide_eq_false_2.
  - replace (scan g latest UNICODE_VERSIONS 0)
      with (scan g latest (earliest :: rest) 0) by (f_equal; congruence).
    apply (scan_from_start g latest _ _ _ Hvs Hlast Hall).
  - intros ->. rewrite tuple_ltb_irrefl in Hlt. discriminate.
Qed.

(** C7.  When the list of versions is not empty and each of its entries
    parses as a version, [_wcmatch_version] returns one of the entries for
    every requested string and every environment, 'auto', 'latest',
    malformed and empty strings included; and whatever the list is, the
    final [assert False] is never reached. *)
Theorem wcmatch_version_total given :
  (UNICODE_VERSIONS <> [] ->
   (forall v, v ∈ UNICODE_VERSIONS -> exists t, version_value v = Ret t) ->
   exists v, resolve given = Ret v /\ v ∈ UNICODE_VERSIONS) /\
  resolve given <> Raise AssertionError.
Proof.
  unfold _wcmatch_version.
  set (requested := if str_eqb given (lit "auto")
                    then default (lit "latest") (environ !! lit "UNICODE_VERSION")
                    else given).
  destruct UNICODE_VERSIONS as [| earliest rest] eqn:Hvs;
    [split; [congruence | discriminate] |].
  rewrite <- Hvs.
  destruct (last UNICODE_VERSIONS) as [latest |] eqn:Hlast;
    [| apply last_None in Hlast; congruence].
  assert (latest ∈ UNICODE_VERSIONS) as Hlatest.
  { rewrite last_lookup in Hlast. eapply list_elem_of_lookup_2, Hlast. }
  assert (UNICODE_VERSIONS !! 0%nat = Some earliest) as Hfirst
    by (rewrite Hvs; reflexivity).
  rewrite (py_index_last _ _ Hlast), ret_bind.
  rewrite (py_index_first UNICODE_VERSIONS earliest Hfirst).
  destruct (str_eqb requested (lit "latest"));
    [split; [eauto | discriminate] |].
  destruct (bool_decide (requested ∈ UNICODE_VERSIONS)) eqn:Hmem;
    [apply bool_decide_eq_true_1 in Hmem; split; [eauto | discriminate] |].
  destruct (version_value_outcome requested) as [[g ->] | ->];
    [| split; [eauto | discriminate]].
  rewrite ret_bind. split.
  - intros _ Hall.
    destruct (Hall earliest) as [t0 ->]; [rewrite Hvs; apply list_elem_of_here |].
    rewrite ret_bind.
    destruct (tuple_leb g t0);
      [exists earliest; split; [reflexivity | rewrite Hvs; apply list_elem_of_here] |].
    destruct (parsed_tuples rest) as [tuples Htuples].
    { intros v Hv. apply Hall. rewrite Hvs. apply list_elem_of_further, Hv. }
    replace (scan g latest UNICODE_VERSIONS 0)
      with (scan g latest (earliest :: rest) 0) by (f_equal; congruence).
    rewrite (scan_from_start g latest _ _ _ Hvs Hlast Htuples).
    eexists. split; [reflexivity |].
    pose proof (nearest_elem g (zip rest tuples) earliest) as Hin.
    rewrite fst_zip in Hin
      by (apply Forall2_length in Htuples; lia).
    rewrite Hvs. exact Hin.
  - destruct (version_value_outcome earliest) as [[t0 ->] | ->];
      [| discriminate].
    rewrite ret_bind. destruct (tuple_leb g t0); [discriminate |].
    replace (scan g latest UNICODE_VERSIONS 0)
      with (scan g latest (earliest :: rest) 0) by (f_equal; congruence).
    apply (scan_never_asserts g latest rest earliest 0%nat).
    rewrite Hvs. reflexivity.
Qed.

End VersionFacts.

(** ** Termination of the width functions

    Only the loops of [Cut_And_Pad_String] can run forever: with the fuel
    they are given, the loops of [_bisearch] and of the byte-wise fallback
    always finish, so [Calc_Char_Width] and [Calc_String_Width] return or
    raise on every input. *)

Lemma bind_finishes {A B} (m : outcome A) (k : A -> outcome B) :
  finishes m -> (forall a, m = Ret a -> finishes (k a)) -> finishes (m ≫= k).
Proof.
  unfold finishes. destruct m as [a | e |]; cbn; intros Hm Hk.
  - apply Hk. reflexivity.
  - discriminate.
  - congruence.
Qed.

Lemma fmap_finishes {A B} (f : A -> B) (m : outcome A) :
  finishes m -> finishes (f <$> m).
Proof. unfold finishes. destruct m; cbn; congruence. Qed.

Lemma py_index_finishes {A} (l : list A) i : finishes (py_index l i).
Proof.
  unfold finishes, py_index.
  destruct (_ && _); [destruct (l !! _) |]; discriminate.
Qed.

Lemma _bisearch_loop_finishes fuel ucs table :
  forall lbound ubound,
    ubound - lbound + 1 <= Z.of_nat fuel ->
    finishes (_bisearch_loop fuel ucs table lbound ubound).
Proof.
  induction fuel as [| k IH]; intros lbound ubound Hfuel; cbn;
    rewrite Z.geb_leb; destruct (Z.leb_spec lbound ubound) as [Hle | Hgt];
    try discriminate; [lia |].
  assert (lbound <= (lbound + ubound) `div` 2 <= ubound) as Hmid
    by (Z.div_mod_to_equations; lia).
  apply bind_finishes; [apply py_index_finishes |].
  intros e _. destruct (ucs >? e.2); [apply IH; lia |].
  destruct (ucs <? e.1); [apply IH; lia | discriminate].
Qed.

Lemma _bisearch_finishes ucs table : finishes (_bisearch ucs table).
Proof.
  unfold _bisearch.
  apply bind_finishes; [apply py_index_finishes |]. intros first _.
  destruct (ucs <? first.1); [discriminate |].
  apply bind_finishes; [apply py_index_finishes |]. intros last _.
  destruct (ucs >? last.2); [discriminate |].
  apply _bisearch_loop_finishes. unfold len. lia.
Qed.

(** [_decode_one] moves forward, by one to four places. *)
Lemma decode_lead_advances b1 b2 b3 b4 lt pos o next :
  decode_lead b1 b2 b3 b4 lt pos = Ret (o, next) -> pos < next <= pos + 4.
Proof.
  unfold decode_lead.
  repeat match goal with
    | |- context [if ?c then _ else _] => destruct c
    end; intros [= _ <-]; lia.
Qed.

Lemma _decode_one_advances t pos o next :
  _decode_one t pos = Ret (o, next) -> pos < next <= pos + 4.
Proof.
  unfold _decode_one. intros H.
  apply bind_ret in H as ([[[b1 b2] b3] b4] & _ & H).
  apply decode_lead_advances in H. exact H.
Qed.

Lemma _decode_one_finishes t pos : finishes (_decode_one t pos).
Proof.
  unfold _decode_one. apply bind_finishes.
  - assert (finishes (read4 t pos (text_len t - pos))) as Hread.
    { unfold read4. destruct t;
        repeat (apply bind_finishes; [| intros ? _]);
        try discriminate;
        repeat match goal with
          | |- context [if ?c then _ else _] => destruct c
          end;
        try discriminate;
        try apply fmap_finishes; apply py_index_finishes. }
    unfold finishes in *.
    destruct (read4 t pos (text_len t - pos)); cbn; congruence.
  - intros [[[b1 b2] b3] b4] _. unfold finishes, decode_lead.
    repeat match goal with
      | |- context [if ?c then _ else _] => destruct c
      end; discriminate.
Qed.

Section Termination.

Variable UNICODE_VERSIONS : list str.
Variable ZERO_WIDTH_CF : gset Z.
Variable ZERO_WIDTH WIDE_EASTASIAN : gmap (list Z) (list (Z * Z)).
Variable environ : gmap (list Z) (list Z).
Variable py_int : str -> option Z.

Local Abbreviation char_width :=
  (Calc_Char_Width UNICODE_VERSIONS ZERO_WIDTH_CF ZERO_WIDTH WIDE_EASTASIAN
     environ py_int).

Lemma _wcversion_value_finishes v : finishes (_wcversion_value py_int v).
Proof.
  destruct (version_value_outcome py_int v) as [[t ->] | ->]; discriminate.
Qed.

Lemma scan_versions_finishes g latest rest :
  forall idx, finishes (scan_versions UNICODE_VERSIONS py_int g latest rest idx).
Proof.
  induction rest as [| u rest IH]; intros idx; cbn; [discriminate |].
  pose proof (py_index_finishes UNICODE_VERSIONS (idx + 1)) as Hidx.
  destruct (py_index UNICODE_VERSIONS (idx + 1)) as [v | [] |];
    try discriminate; [| congruence].
  apply bind_finishes; [apply _wcversion_value_finishes |]. intros t _.
  destruct (tuple_eqb _ _); [discriminate |].
  destruct (tuple_ltb _ _); [discriminate | apply IH].
Qed.

Lemma _wcmatch_version_finishes given :
  finishes (_wcmatch_version UNICODE_VERSIONS environ py_int given).
Proof.
  unfold _wcmatch_version.
  apply bind_finishes; [apply py_index_finishes |]. intros latest _.
  destruct (str_eqb _ (lit "latest")); [discriminate |].
  destruct (bool_decide _); [discriminate |].
  match goal with
  | |- context [_wcversion_value py_int ?r] =>
      destruct (version_value_outcome py_int r) as [[g ->] | ->]
  end; [| discriminate].
  apply bind_finishes; [apply py_index_finishes |]. intros earliest _.
  apply bind_finishes; [apply _wcversion_value_finishes |]. intros t0 _.
  destruct (tuple_leb g t0); [discriminate | apply scan_versions_finishes].
Qed.

Lemma dict_item_finishes {V} (d : gmap (list Z) V) k : finishes (dict_item d k).
Proof. unfold finishes, dict_item. destruct (d !! k); discriminate. Qed.

Lemma Calc_Char_Width_finishes char : finishes (char_width char).
Proof.
  unfold Calc_Char_Width. destruct (bool_decide _); [discriminate |].
  apply bind_finishes.
  - unfold _wcwidth. apply bind_finishes.
    + unfold finishes, ord. destruct char as [| c [| ? ?]]; discriminate.
    + intros ucs _. destruct (bool_decide _); [discriminate |].
      destruct (_ || _); [discriminate |].
      apply bind_finishes; [apply _wcmatch_version_finishes |]. intros ver _.
      apply bind_finishes; [apply dict_item_finishes |]. intros zt _.
      apply bind_finishes; [apply _bisearch_finishes |]. intros z _.
      destruct (negb _); [discriminate |].
      apply bind_finishes; [apply dict_item_finishes |]. intros wt _.
      apply bind_finishes; [apply _bisearch_finishes |]. intros w _.
      discriminate.
  - intros w _. destruct (w <? 0); discriminate.
Qed.

Lemma sum_over_finishes (l : list str) : finishes (sum_over char_width l).
Proof.
  induction l as [| c l IH]; cbn; [discriminate |].
  apply bind_finishes; [apply Calc_Char_Width_finishes |]. intros w _.
  apply bind_finishes; [exact IH |]. intros s _. discriminate.
Qed.

Lemma decode_loop_finishes fuel t end_offs :
  forall i sc,
    end_offs - i <= Z.of_nat fuel ->
    finishes (decode_loop UNICODE_VERSIONS ZERO_WIDTH_CF ZERO_WIDTH
                WIDE_EASTASIAN environ py_int fuel t i end_offs sc).
Proof.
  induction fuel as [| k IH]; intros i sc Hfuel; cbn;
    destruct (Z.ltb_spec i end_offs) as [Hlt | Hge]; try discriminate; [lia |].
  apply bind_finishes; [apply _decode_one_finishes |].
  intros [o next] Hnext. apply _decode_one_advances in Hnext.
  apply bind_finishes.
  { unfold finishes, chr. destruct (_ && _); discriminate. }
  intros c _.
  apply bind_finishes; [apply Calc_Char_Width_finishes |]. intros w _.
  apply IH. lia.
Qed.

(** [Calc_String_Width] returns or raises on every input. *)
Lemma Calc_String_Width_finishes t start_offs end_offs :
  finishes (Calc_String_Width UNICODE_VERSIONS ZERO_WIDTH_CF ZERO_WIDTH
              WIDE_EASTASIAN environ py_int t start_offs end_offs).
Proof.
  unfold Calc_String_Width.
  destruct (text_len t =? 0); [discriminate |].
  destruct (_ >? _) eqn:Hgt; [discriminate |].
  destruct t as [s | b]; [apply sum_over_finishes |].
  destruct (encoding_eqb narrow utf8); [| discriminate].
  destruct (decode_strict _); [apply sum_over_finishes |].
  apply decode_loop_finishes.
  destruct (Z.gtb_spec start_offs
              (match end_offs with None => text_len (TBytes b) | Some e => e end));
    [discriminate | lia].
Qed.

End Termination.

(** ** The statements on the sample instance *)

Section Instances.

Import Sample.

(** C8 on the ellipsis. *)
Lemma override_width_is_two_ellipsis :
  [0x2026] ∈ override_set /\ char_width [0x2026] = Ret 2.
Proof.
  assert ([0x2026] ∈ override_set) as Hin.
  { unfold override_set. do 4 apply list_elem_of_further.
    apply list_elem_of_here. }
  split; [exact Hin |].
  exact (override_width_is_two versions zero_width_cf zero_width
           wide_eastasian no_environ int_decimal [0x2026] Hin).
Defined.

(** C9 on the line feed and on DEL. *)
Lemma control_width_is_zero_lf_del :
  char_width [10] = Ret 0 /\ char_width [0x7F] = Ret 0.
Proof.
  pose proof (proj1 (control_width_is_zero versions zero_width_cf zero_width
                       wide_eastasian no_environ int_decimal)) as H.
  assert (0 <= 10 < 32 \/ 0x7F <= 10 < 0xA0) as Hlf by (left; lia).
  assert (0 <= 0x7F < 32 \/ 0x7F <= 0x7F < 0xA0) as Hdel by (right; lia).
  split.
  - exact (proj2 (H 10 Hlf)).
  - exact (proj2 (H 0x7F Hdel)).
Defined.

(** C3 as stated fails on the empty text: no error, the width is 0. *)
Lemma empty_text_invalid_range_returns_zero :
  1 > 0 /\
  string_width (TStr []) 1 (Some 0) = Ret 0 /\
  string_width (TBytes []) 1 (Some 0) = Ret 0.
Proof. repeat split. Qed.

(** C3, amended, on the string "ab" with offsets 2 and 1. *)
Lemma string_width_invalid_range_ab :
  2 > 1 /\ string_width (TStr (lit "ab")) 2 (Some 1) = Raise ValueError.
Proof.
  split; [lia |].
  exact (string_width_invalid_range versions zero_width_cf zero_width
           wide_eastasian no_environ int_decimal (TStr (lit "ab")) 2 (Some 1)
           ltac:(vm_compute; reflexivity)).
Defined.

(** C4 as stated fails on the UTF-8 encoding of the ellipsis: the buffer
    E2 80 A6 is well formed and encodes one character of width 2, but its
    width as [bytes] is 3, the number of bytes. *)
Lemma bytes_width_is_not_decoded_width :
  decode_strict [xe2; x80; xa6] = Some [0x2026] /\
  decoded_width [xe2; x80; xa6] = Some (Ret 2) /\
  string_width (TBytes [xe2; x80; xa6]) 0 None = Ret 3.
Proof. repeat split. Qed.

(** C2 as stated fails on the request "9.5": the first tabulated version
    not less than (9, 5) is "10.0.0", and the function returns "9.0.0". *)
Lemma wcmatch_version_is_not_first_not_less :
  _wcversion_value int_decimal (lit "9.5") = Ret [9; 5] /\
(lit "9.5" ∉ versions) /\
  first_not_less [9; 5] (lit "15.0.0") entries = lit "10.0.0" /\
  resolve no_environ (lit "9.5") = Ret (lit "9.0.0") /\
  lit "9.0.0" <> lit "10.0.0".
Proof.
  split; [reflexivity |]. split; [| repeat split; discriminate].
  apply (bool_decide_eq_false_1 (lit "9.5" ∈ versions)). reflexivity.
Qed.

(** C2, amended, on the request "9.5". *)
Lemma wcmatch_version_nearest_9_5 :
  resolve no_environ (lit "9.5") =
    Ret (nearest [9; 5] (lit "4.1.0") (tail entries)) /\
  nearest [9; 5] (lit "4.1.0") (tail entries) = lit "9.0.0".
Proof.
  split; [| reflexivity].
  refine (wcmatch_version_nearest versions no_environ int_decimal
            (lit "9.5") [9; 5] (lit "4.1.0") [4; 1; 0] (tail versions)
            (tuple_of <$> tail versions) eq_refl _ _ _ eq_refl eq_refl _
            eq_refl).
  - discriminate.
  - discriminate.
  - apply (bool_decide_eq_false_1 (lit "9.5" ∈ versions)). reflexivity.
  - repeat constructor.
Defined.

(** C7 on a string that is not a version and on the empty string. *)
Lemma wcmatch_version_total_garbage :
  (exists v, resolve no_environ (lit "garbage") = Ret v /\ v ∈ versions) /\
  (exists v, resolve no_environ [] = Ret v /\ v ∈ versions).
Proof.
  assert (versions <> []) as Hne by discriminate.
  assert (forall v, v ∈ versions ->
            exists t, _wcversion_value int_decimal v = Ret t) as Hall.
  { apply Forall_forall. repeat constructor; eexists; reflexivity. }
  split.
  - exact (proj1 (wcmatch_version_total versions no_environ int_decimal
                    (lit "garbage")) Hne Hall).
  - exact (proj1 (wcmatch_version_total versions no_environ int_decimal [])
             Hne Hall).
Defined.

(** C5 with the zero-width space as pad character. *)
Lemma fit_does_not_terminate_zero_width_space :
  0x200B ∈ zero_width_cf /\ char_width [0x200B] = Ret 0 /\
  fit 1000 [] 1 (lit "left") (lit "right") [0x200B] = OutOfFuel.
Proof.
  assert (0x200B ∈ zero_width_cf) as Hcf
    by (apply (bool_decide_eq_true_1 (0x200B ∈ zero_width_cf)); reflexivity).
  assert ([0x200B] ∉ override_set) as Hov
    by (apply (bool_decide_eq_false_1 ([0x200B] ∈ override_set)); reflexivity).
  split; [exact Hcf |]. split; [reflexivity |].
  exact (proj2 (proj2 (proj2 (proj2
           (fit_does_not_terminate versions zero_width_cf zero_width
              wide_eastasian no_environ int_decimal 1000))))
           0x200B Hcf Hov).
Defined.

End Instances.

(** * Further properties *)

(** ** Range search *)

Section BisearchFacts.

Variable ucs : Z.
Variable table : list (Z * Z).

Lemma in_table_true e :
  e ∈ table -> e.1 <= ucs <= e.2 -> in_table ucs table = true.
Proof.
  intros He Hr. unfold in_table. apply existsb_exists.
  exists e. split; [apply list_elem_of_In, He |].
  apply andb_true_iff. split; lia.
Qed.

Lemma in_table_false :
  (forall (i : nat) e, table !! i = Some e -> ucs < e.1 \/ e.2 < ucs) ->
  in_table ucs table = false.
Proof.
  intros Hout. unfold in_table.
  destruct (existsb _ table) eqn:Hex; [| reflexivity].
  apply existsb_exists in Hex as (e & He & Hr).
  apply list_elem_of_In, list_elem_of_lookup in He as [i Hi].
  apply andb_true_iff in Hr as [H1 H2]. destruct (Hout i e Hi); lia.
Qed.

Lemma py_index_inside (i : Z) :
  0 <= i < len table ->
  exists e, table !! Z.to_nat i = Some e /\ py_index table i = Ret e.
Proof. apply py_index_in_range. Qed.

Lemma midpoint lbound ubound :
  lbound <= ubound ->
  lbound <= (lbound + ubound) `div` 2 <= ubound /\
  2 * (ubound - (lbound + ubound) `div` 2) <= ubound - lbound + 1 /\
  2 * ((lbound + ubound) `div` 2 - lbound) <= ubound - lbound.
Proof. intros H. Z.div_mod_to_equations. lia. Qed.

(** The loop inside the table: it returns 0 or 1, and 1 only for a code
    point of the table. *)
Lemma loop_sound fuel :
  forall lbound ubound,
    0 <= lbound -> ubound < len table ->
    ubound - lbound + 1 <= Z.of_nat fuel ->
    exists r, _bisearch_loop fuel ucs table lbound ubound = Ret r /\
              (r = 0 \/ r = 1 /\ in_table ucs table = true).
Proof.
  induction fuel as [| k IH]; intros lbound ubound Hl Hu Hfuel; cbn;
    rewrite Z.geb_leb; destruct (Z.leb_spec lbound ubound) as [Hle | Hgt];
    try (exists 0; split; [reflexivity | left; reflexivity]); [lia |].
  destruct (midpoint lbound ubound Hle) as (Hmid & _ & _).
  destruct (py_index_inside ((lbound + ubound) `div` 2)) as (e & He & ->);
    [lia |].
  rewrite ret_bind.
  destruct (Z.gtb_spec ucs e.2) as [Hhi | Hhi]; [apply IH; lia |].
  destruct (Z.ltb_spec ucs e.1) as [Hlo | Hlo]; [apply IH; lia |].
  exists 1. split; [reflexivity |]. right. split; [reflexivity |].
  apply (in_table_true e); [eapply list_elem_of_lookup_2, He | lia].
Qed.

(** The loop on a sorted table, when the ranges left of [lbound] end before
    [ucs] and the ranges right of [ubound] start after it. *)
Lemma loop_correct fuel :
  table_sorted table ->
  forall lbound ubound,
    0 <= lbound -> ubound < len table ->
    ubound - lbound + 1 <= Z.of_nat fuel ->
    (forall (i : nat) e, table !! i = Some e -> Z.of_nat i < lbound -> e.2 < ucs) ->
    (forall (i : nat) e, table !! i = Some e -> ubound < Z.of_nat i -> ucs < e.1) ->
    _bisearch_loop fuel ucs table lbound ubound =
      Ret (if in_table ucs table then 1 else 0).
Proof.
  intros [Hne Hord].
  induction fuel as [| k IH]; intros lbound ubound Hl Hu Hfuel Hleft Hright;
    cbn; rewrite Z.geb_leb;
    destruct (Z.leb_spec lbound ubound) as [Hle | Hgt]; [lia | | |].
  - rewrite in_table_false; [reflexivity |].
    intros i e Hi. destruct (Z.lt_ge_cases (Z.of_nat i) lbound);
      [right; eapply Hleft | left; eapply Hright]; eauto; lia.
  - destruct (midpoint lbound ubound Hle) as (Hmid & _ & _).
    destruct (py_index_inside ((lbound + ubound) `div` 2)) as (e & He & ->);
      [lia |].
    rewrite ret_bind.
    assert (e.1 <= e.2) as Hrange
      by (apply Hne; eapply list_elem_of_lookup_2, He).
    destruct (Z.gtb_spec ucs e.2) as [Hhi | Hhi].
    { apply IH; try lia; [| exact Hright].
      intros i f Hf Hi.
      destruct (Nat.lt_ge_cases i (Z.to_nat ((lbound + ubound) `div` 2)))
        as [Hlt | Hge].
      - pose proof (Hord _ _ _ _ Hf He Hlt). lia.
      - assert (i = Z.to_nat ((lbound + ubound) `div` 2)) as -> by lia.
        rewrite He in Hf. injection Hf as <-. lia. }
    destruct (Z.ltb_spec ucs e.1) as [Hlo | Hlo].
    { apply IH; try lia; [exact Hleft |].
      intros i f Hf Hi.
      destruct (Nat.lt_ge_cases (Z.to_nat ((lbound + ubound) `div` 2)) i)
        as [Hlt | Hge].
      - pose proof (Hord _ _ _ _ He Hf Hlt). lia.
      - assert (i = Z.to_nat ((lbound + ubound) `div` 2)) as -> by lia.
        rewrite He in Hf. injection Hf as <-. lia. }
    rewrite (in_table_true e); [reflexivity | | lia].
    eapply list_elem_of_lookup_2, He.
  - rewrite in_table_false; [reflexivity |].
    intros i e Hi. destruct (Z.lt_ge_cases (Z.of_nat i) lbound);
      [right; eapply Hleft | left; eapply Hright]; eauto; lia.
Qed.

Lemma bisearch_membership :
  table <> [] -> table_sorted table ->
  _bisearch ucs table = Ret (if in_table ucs table then 1 else 0).
Proof.
  intros Hne Hsorted. pose proof Hsorted as [Hrange Hord].
  assert (0 < len table) as Hlen
    by (unfold len; destruct table; [congruence | cbn; lia]).
  unfold _bisearch.
  destruct (py_index_inside 0) as (first & Hfirst & ->); [lia |].
  rewrite ret_bind.
  destruct (Z.ltb_spec ucs first.1) as [Hlow | Hlow].
  { rewrite in_table_false; [reflexivity |].
    intros i e Hi. left. destruct i as [| i].
    - change (Z.to_nat 0) with 0%nat in Hfirst. congruence.
    - change (Z.to_nat 0) with 0%nat in Hfirst.
      pose proof (Hord 0%nat (S i) _ _ Hfirst Hi ltac:(lia)).
      pose proof (Hrange first ltac:(eapply list_elem_of_lookup_2, Hfirst)).
      lia. }
  destruct (py_index_inside (len table - 1)) as (last & Hlast & ->); [lia |].
  rewrite ret_bind.
  destruct (Z.gtb_spec ucs last.2) as [Hhigh | Hhigh].
  { rewrite in_table_false; [reflexivity |].
    intros i e Hi. right.
    pose proof (lookup_lt_Some _ _ _ Hi) as Hi'. unfold len in *.
    destruct (Nat.eq_dec i (Z.to_nat (Z.of_nat (length table) - 1)))
      as [-> | Hneq].
    - congruence.
    - pose proof (Hord i _ _ _ Hi Hlast ltac:(lia)).
      pose proof (Hrange last ltac:(eapply list_elem_of_lookup_2, Hlast)).
      lia. }
  apply loop_correct;
    [assumption | lia | lia | unfold len; lia | intros i e _ Hi; lia |].
  intros i e Hi Hbig. apply lookup_lt_Some in Hi. unfold len in Hbig. lia.
Qed.

(** X1.  On a table that is not empty and is sorted (no empty range, each
    range ending before the later ones start) [_bisearch] answers what the
    linear search answers: 1 when the code point lies in a range of the
    table, 0 otherwise. *)
Theorem bisearch_is_membership :
  table <> [] -> table_sorted table ->
  _bisearch ucs table = Ret (if in_table ucs table then 1 else 0).
Proof. exact bisearch_membership. Qed.

(** X2.  Whatever the order of its ranges, a table that is not empty makes
    [_bisearch] return 0 or 1, and 1 only for a code point that lies in one
    of its ranges; the empty table makes it raise [IndexError]. *)
Theorem bisearch_sound_on_any_table :
  (table <> [] ->
   exists r, _bisearch ucs table = Ret r /\
             (r = 0 \/ r = 1 /\ in_table ucs table = true)) /\
  _bisearch ucs [] = Raise IndexError.
Proof.
  split; [| reflexivity]. intros Hne.
  assert (0 < len table) as Hlen
    by (unfold len; destruct table; [congruence | cbn; lia]).
  unfold _bisearch.
  destruct (py_index_inside 0) as (first & _ & ->); [lia |].
  rewrite ret_bind.
  destruct (ucs <? first.1); [exists 0; auto |].
  destruct (py_index_inside (len table - 1)) as (last & _ & ->); [lia |].
  rewrite ret_bind.
  destruct (ucs >? last.2); [exists 0; auto |].
  apply loop_sound; unfold len; lia.
Qed.

(** X3.  The loop of [_bisearch] halves the interval it searches: within
    the table, [k] rounds are enough whenever the interval holds fewer than
    [2 ^ k] ranges. *)
Theorem bisearch_loop_is_logarithmic (k : nat) lbound ubound :
  0 <= lbound -> ubound < len table ->
  ubound - lbound + 1 < 2 ^ Z.of_nat k ->
  finishes (_bisearch_loop k ucs table lbound ubound) /\
  _bisearch_loop k ucs table lbound ubound =
    _bisearch_loop (length table) ucs table lbound ubound.
Proof.
  revert lbound ubound.
  assert (forall fuel lbound ubound,
            0 <= lbound -> ubound < len table ->
            ubound - lbound + 1 < 2 ^ Z.of_nat k ->
            ubound - lbound + 1 <= Z.of_nat fuel ->
            _bisearch_loop k ucs table lbound ubound =
              _bisearch_loop fuel ucs table lbound ubound) as Hsame.
  { induction k as [| k' IH]; intros fuel lbound ubound Hl Hu Hk Hfuel.
    - change (2 ^ Z.of_nat 0) with 1 in Hk.
      destruct fuel; cbn; rewrite Z.geb_leb;
        destruct (Z.leb_spec lbound ubound); try reflexivity; lia.
    - rewrite Nat2Z.inj_succ, Z.pow_succ_r in Hk by lia.
      destruct fuel as [| fuel]; cbn; rewrite Z.geb_leb;
        destruct (Z.leb_spec lbound ubound) as [Hle | Hgt];
        try reflexivity; [lia |].
      destruct (midpoint lbound ubound Hle) as (Hmid & Hright & Hleft).
      destruct (py_index_inside ((lbound + ubound) `div` 2))
        as (e & _ & ->); [lia |].
      rewrite !ret_bind.
      destruct (ucs >? e.2); [apply IH; lia |].
      destruct (ucs <? e.1); [apply IH; lia | reflexivity]. }
  intros lbound ubound Hl Hu Hk.
  assert (ubound - lbound + 1 <= Z.of_nat (length table)) as Hfuel
    by (unfold len in Hu; lia).
  split; [| apply Hsame; assumption].
  rewrite (Hsame _ _ _ Hl Hu Hk Hfuel).
  apply _bisearch_loop_finishes. exact Hfuel.
Qed.

End BisearchFacts.

(** ** The decoder, continued *)

Section DecoderFurther.

Lemma py_index_outside {A} (l : list A) (i : Z) :
  len l <= i \/ i < - len l -> py_index l i = Raise IndexError.
Proof.
  intros [Hi | Hi]; [apply py_index_beyond, Hi |].
  unfold py_index. destruct (Z.ltb_spec i 0) as [_ | ?];
    [| unfold len in *; lia].
  rewrite (proj2 (Z.leb_gt 0 (i + len l))) by lia. reflexivity.
Qed.

(** X4.  A position outside the text, at or after its end or before its
    start counted from the end, makes [_decode_one] raise [ValueError], for
    [str] and for [bytes]; in particular every position of the empty text
    does. *)
Theorem decode_outside_raises (t : text) (pos : Z) :
  text_len t <= pos \/ pos < - text_len t ->
  _decode_one t pos = Raise ValueError.
Proof.
  intros Hpos. unfold _decode_one, read4.
  destruct t as [s | b]; cbn [text_len] in *;
    rewrite (py_index_outside _ _ Hpos); reflexivity.
Qed.

(** The decoder written with ranges always returns, inside what is left of
    the buffer, an ordinal of at most 21 bits. *)
Lemma decode_ranges_returns b1 b2 b3 b4 lt pos :
  0 <= b1 < 256 -> 1 <= lt ->
  exists o next,
    decode_ranges b1 b2 b3 b4 lt pos = Ret (o, next) /\
    pos < next <= pos + lt /\ next <= pos + 4 /\ 0 <= o < 0x200000.
Proof.
  intros Hb1 Hlt. unfold decode_ranges, placeholder.
  destruct (in_range 0 127 b1) eqn:Hascii.
  { eexists _, _. split; [reflexivity |]. lia. }
  destruct (Z.ltb_spec lt 2); [eexists _, _; split; [reflexivity | lia] |].
  destruct (in_range 192 223 b1).
  { destruct (negb _); [eexists _, _; split; [reflexivity | lia] |].
    destruct (_ <? _); eexists _, _; (split; [reflexivity |]); [lia |].
    unfold payload. Z.div_mod_to_equations. lia. }
  destruct (Z.ltb_spec lt 3); [eexists _, _; split; [reflexivity | lia] |].
  destruct (in_range 224 239 b1).
  { repeat (destruct (negb _); [eexists _, _; split; [reflexivity | lia] |]).
    destruct (_ <? _); eexists _, _; (split; [reflexivity |]); [lia |].
    unfold payload. Z.div_mod_to_equations. lia. }
  destruct (Z.ltb_spec lt 4); [eexists _, _; split; [reflexivity | lia] |].
  destruct (in_range 240 247 b1);
    [| eexists _, _; split; [reflexivity | lia]].
  repeat (destruct (negb _); [eexists _, _; split; [reflexivity | lia] |]).
  destruct (_ <? _); eexists _, _; (split; [reflexivity |]); [lia |].
  unfold payload. Z.div_mod_to_equations. lia.
Qed.

(** X5.  At every position inside a buffer of bytes, well formed or not,
    [_decode_one] returns: the next position is at least one and at most
    four places further and never beyond the end of the buffer, and the
    ordinal is not negative and has at most 21 bits. *)
Theorem decode_advances_within_buffer (b : bytes) (pos : Z) :
  in_buffer b pos ->
  exists o next,
    _decode_one (TBytes b) pos = Ret (o, next) /\
    pos < next <= len b /\ next <= pos + 4 /\ 0 <= o < 0x200000.
Proof.
  intros Hin. rewrite _decode_one_ranges by exact Hin.
  destruct Hin as [Hpos Hlen].
  destruct (decode_ranges_returns (following b pos 0) (following b pos 1)
              (following b pos 2) (following b pos 3) (len b - pos) pos)
    as (o & next & Heq & Hnext & Hfour & Ho);
    [apply following_range | lia |].
  exists o, next. split; [exact Heq |]. lia.
Qed.

Lemma byte_at_following (b : bytes) pos i :
  0 <= pos -> 0 <= i -> pos + i < len b ->
  byte_at b (pos + i) = Some (following b pos i).
Proof.
  intros Hpos Hi Hlen. unfold following, byte_at.
  destruct (Z.ltb_spec (pos + i) 0) as [? | _]; [lia |].
  destruct (lookup_lt_is_Some_2 b (Z.to_nat (pos + i))) as [x ->];
    [unfold len in Hlen; lia | reflexivity].
Qed.

(** X6.  At a position inside a buffer where decoding does not fail (enough
    bytes for the announced length, continuation bytes where they are due,
    shortest form), [_decode_one] consumes exactly the number of bytes that
    the lead byte announces and returns the ordinal that they carry. *)
Theorem decode_success_consumes_announced (b : bytes) (pos : Z) :
  in_buffer b pos -> ~ decode_failure b pos ->
  exists b1 n,
    byte_at b pos = Some b1 /\ lead_length b1 = Some n /\
    _decode_one (TBytes b) pos =
      Ret (payload n b1 (following b pos 1) (following b pos 2)
             (following b pos 3), pos + n).
Proof.
  intros Hin Hok. rewrite _decode_one_ranges by exact Hin.
  destruct Hin as [Hpos Hlen].
  assert (byte_at b pos = Some (following b pos 0)) as H1.
  { rewrite <- (Z.add_0_r pos) at 1. apply byte_at_following; lia. }
  exists (following b pos 0).
  destruct (lead_length (following b pos 0)) as [n |] eqn:Hn;
    [| exfalso; apply Hok; eapply fail_no_lead; eassumption].
  exists n. split; [exact H1 |]. split; [reflexivity |].
  pose proof (lead_length_range _ _ Hn) as Hrange.
  assert (n <= len b - pos) as Henough.
  { destruct (Z.le_gt_cases n (len b - pos)); [assumption |].
    exfalso. apply Hok. eapply fail_insufficient; eauto; lia. }
  assert (forall i, 1 <= i < n -> is_continuation (following b pos i) = true)
    as Hcont.
  { intros i Hi. destruct (is_continuation _) eqn:Hc; [reflexivity |].
    exfalso. apply Hok.
    eapply (fail_continuation b pos _ n i); eauto;
      try (apply byte_at_following; lia). }
  assert (2 <= n ->
          shortest_from n <= payload n (following b pos 0) (following b pos 1)
                               (following b pos 2) (following b pos 3))
    as Hshort.
  { intros Hn2. apply Z.le_ngt. intros Hlow. apply Hok.
    eapply fail_overlong; eauto; lia. }
  revert Hn Henough Hcont Hshort.
  generalize (len b - pos) as lt.
  unfold decode_ranges, lead_length.
  destruct (in_range 0 127 _); [intros lt [= <-] _ _ _; reflexivity |].
  destruct (in_range 192 223 _).
  { intros lt [= <-] Henough Hcont Hshort.
    rewrite (proj2 (Z.ltb_ge lt 2)) by lia.
    rewrite (Hcont 1) by lia. cbn [negb].
    rewrite (proj2 (Z.ltb_ge _ _)) by (apply Hshort; lia). reflexivity. }
  destruct (in_range 224 239 _).
  { intros lt [= <-] Henough Hcont Hshort.
    rewrite (proj2 (Z.ltb_ge lt 2)), (proj2 (Z.ltb_ge lt 3)) by lia.
    rewrite (Hcont 1), (Hcont 2) by lia. cbn [negb].
    rewrite (proj2 (Z.ltb_ge _ _)) by (apply Hshort; lia). reflexivity. }
  destruct (in_range 240 247 _); [| discriminate].
  intros lt [= <-] Henough Hcont Hshort.
  rewrite (proj2 (Z.ltb_ge lt 2)), (proj2 (Z.ltb_ge lt 3)),
    (proj2 (Z.ltb_ge lt 4)) by lia.
  rewrite (Hcont 1), (Hcont 2), (Hcont 3) by lia. cbn [negb].
  rewrite (proj2 (Z.ltb_ge _ _)) by (apply Hshort; lia). reflexivity.
Qed.

(** *** Decoding what was encoded *)

Lemma in_range_reflect lo hi x : reflect (lo <= x <= hi) (in_range lo hi x).
Proof.
  apply iff_reflect. unfold in_range.
  rewrite andb_true_iff, !Z.leb_le. reflexivity.
Qed.

Lemma byte_val_byte_of z : 0 <= z < 256 -> byte_val (byte_of z) = z.
Proof.
  intros Hz. unfold byte_val, byte_of.
  destruct (Byte.of_N (Z.to_N z)) as [x |] eqn:Hx.
  - apply Byte.to_of_N in Hx. rewrite Hx. lia.
  - apply Byte.of_N_None_iff in Hx. lia.
Qed.

Lemma following_middle (pre l suf : bytes) (i : Z) x :
  0 <= i -> l !! Z.to_nat i = Some x ->
  following (pre ++ l ++ suf) (len pre) i = byte_val x.
Proof.
  intros Hi Hx. unfold following, byte_at, len.
  destruct (Z.ltb_spec (Z.of_nat (length pre) + i) 0) as [? | _]; [lia |].
  replace (Z.to_nat (Z.of_nat (length pre) + i))
    with (length pre + Z.to_nat i)%nat by lia.
  rewrite lookup_app_r, Nat.add_comm, Nat.add_sub by lia.
  rewrite (lookup_app_l_Some _ _ _ _ Hx). reflexivity.
Qed.

Ltac divmod := Z.div_mod_to_equations; lia.
Ltac read_encoded i :=
  erewrite (following_middle _ _ _ i); [| lia | reflexivity].

Lemma ranges_encoded1 cp b2 b3 b4 lt pos :
  0 <= cp < 0x80 -> decode_ranges cp b2 b3 b4 lt pos = Ret (cp, pos + 1).
Proof.
  intros Hcp. unfold decode_ranges.
  destruct (in_range_reflect 0 127 cp); [reflexivity | lia].
Qed.

Lemma ranges_encoded2 cp b3 b4 lt pos :
  0x80 <= cp < 0x800 -> 2 <= lt ->
  decode_ranges (0xC0 + cp `div` 64) (0x80 + cp `mod` 64) b3 b4 lt pos
  = Ret (cp, pos + 2).
Proof.
  intros Hcp Hlt. unfold decode_ranges, is_continuation, shortest_from.
  destruct (in_range_reflect 0 127 (192 + cp `div` 64)); [divmod |].
  destruct (Z.ltb_spec lt 2); [lia |].
  destruct (in_range_reflect 192 223 (192 + cp `div` 64)); [| divmod].
  destruct (in_range_reflect 128 191 (128 + cp `mod` 64)); [| divmod].
  cbn [negb].
  assert (payload 2 (192 + cp `div` 64) (128 + cp `mod` 64) b3 b4 = cp)
    as -> by (unfold payload; divmod).
  destruct (Z.ltb_spec cp 128); [lia | reflexivity].
Qed.

Lemma ranges_encoded3 cp b4 lt pos :
  0x800 <= cp < 0x10000 -> 3 <= lt ->
  decode_ranges (0xE0 + cp `div` 4096) (0x80 + (cp `div` 64) `mod` 64)
    (0x80 + cp `mod` 64) b4 lt pos
  = Ret (cp, pos + 3).
Proof.
  intros Hcp Hlt. unfold decode_ranges, is_continuation, shortest_from.
  destruct (in_range_reflect 0 127 (224 + cp `div` 4096)); [divmod |].
  destruct (Z.ltb_spec lt 2); [lia |].
  destruct (in_range_reflect 192 223 (224 + cp `div` 4096)); [divmod |].
  destruct (Z.ltb_spec lt 3); [lia |].
  destruct (in_range_reflect 224 239 (224 + cp `div` 4096)); [| divmod].
  destruct (in_range_reflect 128 191 (128 + (cp `div` 64) `mod` 64));
    [| divmod].
  destruct (in_range_reflect 128 191 (128 + cp `mod` 64)); [| divmod].
  cbn [negb].
  assert (payload 3 (224 + cp `div` 4096) (128 + (cp `div` 64) `mod` 64)
            (128 + cp `mod` 64) b4 = cp)
    as -> by (unfold payload; divmod).
  destruct (Z.ltb_spec cp 2048); [lia | reflexivity].
Qed.

Lemma ranges_encoded4 cp lt pos :
  0x10000 <= cp < 0x200000 -> 4 <= lt ->
  decode_ranges (0xF0 + cp `div` 262144) (0x80 + (cp `div` 4096) `mod` 64)
    (0x80 + (cp `div` 64) `mod` 64) (0x80 + cp `mod` 64) lt pos
  = Ret (cp, pos + 4).
Proof.
  intros Hcp Hlt. unfold decode_ranges, is_continuation, shortest_from.
  destruct (in_range_reflect 0 127 (240 + cp `div` 262144)); [divmod |].
  destruct (Z.ltb_spec lt 2); [lia |].
  destruct (in_range_reflect 192 223 (240 + cp `div` 262144)); [divmod |].
  destruct (Z.ltb_spec lt 3); [lia |].
  destruct (in_range_reflect 224 239 (240 + cp `div` 262144)); [divmod |].
  destruct (Z.ltb_spec lt 4); [lia |].
  destruct (in_range_reflect 240 247 (240 + cp `div` 262144)); [| divmod].
  destruct (in_range_reflect 128 191 (128 + (cp `div` 4096) `mod` 64));
    [| divmod].
  destruct (in_range_reflect 128 191 (128 + (cp `div` 64) `mod` 64));
    [| divmod].
  destruct (in_range_reflect 128 191 (128 + cp `mod` 64)); [| divmod].
  cbn [negb].
  assert (payload 4 (240 + cp `div` 262144) (128 + (cp `div` 4096) `mod` 64)
            (128 + (cp `div` 64) `mod` 64) (128 + cp `mod` 64) = cp)
    as -> by (unfold payload; divmod).
  destruct (Z.ltb_spec cp 65536); [lia | reflexivity].
Qed.

(** X7.  Decoding inverts encoding: wherever the UTF-8 form of a code point
    up to U+10FFFF stands in a buffer, [_decode_one] at its first byte
    returns that code point and the position just after the form, whatever
    the bytes around it are. *)
Theorem decode_inverts_encode (cp : Z) (pre suf : bytes) :
  0 <= cp <= 0x10FFFF ->
  _decode_one (TBytes (pre ++ encode_utf8 cp ++ suf)) (len pre)
  = Ret (cp, len pre + len (encode_utf8 cp)).
Proof.
  intros Hcp.
  assert (encode_utf8 cp <> []) as Hne
    by (unfold encode_utf8; repeat destruct (_ <? _); discriminate).
  rewrite _decode_one_ranges.
  2:{ unfold in_buffer, len. rewrite !length_app.
      destruct (encode_utf8 cp); [congruence | cbn; lia]. }
  assert (len (pre ++ encode_utf8 cp ++ suf) - len pre
          = len (encode_utf8 cp) + len suf) as ->
    by (unfold len; rewrite !length_app; lia).
  assert (0 <= len suf) as Hsuf by (unfold len; lia).
  revert Hne. unfold encode_utf8.
  destruct (Z.ltb_spec cp 0x80) as [H1 | H1];
    [| destruct (Z.ltb_spec cp 0x800) as [H2 | H2];
       [| destruct (Z.ltb_spec cp 0x10000) as [H3 | H3]]]; intros _.
  - read_encoded 0.
    rewrite byte_val_byte_of by lia. apply ranges_encoded1. lia.
  - read_encoded 0.
    read_encoded 1.
    rewrite !byte_val_byte_of by divmod.
    apply ranges_encoded2; [lia | unfold len; cbn; lia].
  - read_encoded 0.
    read_encoded 1.
    read_encoded 2.
    rewrite !byte_val_byte_of by divmod.
    apply ranges_encoded3; [lia | unfold len; cbn; lia].
  - read_encoded 0.
    read_encoded 1.
    read_encoded 2.
    read_encoded 3.
    rewrite !byte_val_byte_of by divmod.
    apply ranges_encoded4; [lia | unfold len; cbn; lia].
Qed.

End DecoderFurther.

(** ** Widths of characters and strings, continued *)

Lemma ranges_after_spec table : forall bound,
  ranges_after bound table = true ->
  (forall e, e ∈ table -> bound < e.1 /\ e.1 <= e.2) /\
  (forall (i j : nat) e f,
     table !! i = Some e -> table !! j = Some f -> (i < j)%nat -> e.2 < f.1).
Proof.
  induction table as [| e r IH]; intros bound H.
  - split; [intros e He; inversion He | intros i j e f Hi; discriminate].
  - cbn in H. apply andb_true_iff in H as [H Hr].
    apply andb_true_iff in H as [Hb He].
    destruct (IH _ Hr) as [Hall Hord]. split.
    + intros f Hf. apply elem_of_cons in Hf as [-> | Hf]; [lia |].
      destruct (Hall f Hf). lia.
    + intros i j f g Hi Hj Hij. destruct i as [| i], j as [| j]; try lia.
      * injection Hi as <-. cbn in Hj.
        destruct (Hall g); [eapply list_elem_of_lookup_2, Hj | lia].
      * cbn in Hi, Hj. apply (Hord i j f g Hi Hj). lia.
Qed.

Lemma table_sortedb_spec table :
  table_sortedb table = true -> table_sorted table.
Proof.
  destruct table as [| e r]; intros H.
  - split; [intros e He; inversion He | intros i j e f Hi; discriminate].
  - destruct (ranges_after_spec (e :: r) (e.1 - 1)) as [Hall Hord].
    + cbn in *. apply andb_true_iff in H as [He Hr].
      rewrite He, Hr, (proj2 (Z.ltb_lt _ _)) by lia. reflexivity.
    + split; [intros f Hf; apply Hall, Hf | exact Hord].
Qed.

Section WidthFurther.

Variable UNICODE_VERSIONS : list str.
Variable ZERO_WIDTH_CF : gset Z.
Variable ZERO_WIDTH WIDE_EASTASIAN : gmap (list Z) (list (Z * Z)).
Variable environ : gmap (list Z) (list Z).
Variable py_int : str -> option Z.

Local Abbreviation char_width :=
  (Calc_Char_Width UNICODE_VERSIONS ZERO_WIDTH_CF ZERO_WIDTH WIDE_EASTASIAN
     environ py_int).
Local Abbreviation string_width :=
  (Calc_String_Width UNICODE_VERSIONS ZERO_WIDTH_CF ZERO_WIDTH WIDE_EASTASIAN
     environ py_int).
Local Abbreviation widths s := (sum_over char_width (chars s)).

(** X8.  A string that is not one character long, the empty string for
    one, is not in the override list and makes [Calc_Char_Width] raise
    [TypeError] (from [ord]). *)
Theorem char_width_needs_one_character (char : str) :
  length char <> 1%nat -> char_width char = Raise TypeError.
Proof.
  intros Hlen. unfold Calc_Char_Width.
  rewrite bool_decide_eq_false_2.
  - unfold _wcwidth, ord. destruct char as [| c [| d r]];
      [reflexivity | cbn in Hlen; congruence | reflexivity].
  - intros Hin. unfold override_set in Hin.
    repeat (apply elem_of_cons in Hin as [-> | Hin];
            [cbn in Hlen; congruence |]).
    inversion Hin.
Qed.

(** X9.  For a character of [ZERO_WIDTH_CF] neither the tables nor the
    version are looked at: its width is 0, unless the character is in the
    override list, which comes first and gives 2. *)
Theorem zero_width_cf_before_tables (c : Z) :
  c ∈ ZERO_WIDTH_CF ->
  char_width [c] = Ret (if bool_decide ([c] ∈ override_set) then 2 else 0).
Proof.
  intros Hcf. unfold Calc_Char_Width.
  destruct (bool_decide ([c] ∈ override_set)); [reflexivity |].
  unfold _wcwidth. cbn [ord]. rewrite ret_bind.
  rewrite (bool_decide_eq_true_2 _ Hcf). reflexivity.
Qed.

(** *** Sums of widths *)

Lemma sum_over_app {A} (f : A -> outcome Z) (a b : list A) :
  sum_over f (a ++ b) =
  x ← sum_over f a; y ← sum_over f b; Ret (x + y).
Proof.
  induction a as [| c a IH]; cbn [app sum_over].
  - rewrite ret_bind. destruct (sum_over f b); reflexivity.
  - rewrite IH. destruct (f c) as [w | |]; cbn; try reflexivity.
    destruct (sum_over f a) as [x | |]; cbn; try reflexivity.
    destruct (sum_over f b) as [y | |]; cbn; try reflexivity.
    f_equal. lia.
Qed.

Lemma string_width_is_widths (s : str) :
  string_width (TStr s) 0 None = widths s.
Proof.
  unfold Calc_String_Width. cbn [text_len].
  destruct (Z.eqb_spec (len s) 0) as [H0 | _].
  - destruct s; [reflexivity | unfold len in H0; cbn in H0; lia].
  - destruct (Z.gtb_spec 0 (len s)) as [? | _]; [unfold len in *; lia |].
    rewrite py_slice_all. reflexivity.
Qed.

(** X10.  The width of a concatenation is the sum of the widths of its
    parts: [Calc_String_Width(a + b)] returns the sum of what
    [Calc_String_Width(a)] and [Calc_String_Width(b)] return, and raises
    what the first of them that raises does. *)
Theorem string_width_of_concatenation (a b : str) :
  string_width (TStr (a ++ b)) 0 None =
  x ← string_width (TStr a) 0 None;
  y ← string_width (TStr b) 0 None;
  Ret (x + y).
Proof.
  rewrite !string_width_is_widths. unfold chars. rewrite fmap_app.
  apply sum_over_app.
Qed.

Lemma py_slice_inside {A} (l : list A) (i j : Z) :
  0 <= i <= j -> j <= len l ->
  py_slice l (Some i) (Some j) = take (Z.to_nat (j - i)) (drop (Z.to_nat i) l).
Proof.
  intros Hij Hj. unfold py_slice, clamp_bound.
  destruct (Z.ltb_spec i 0), (Z.ltb_spec j 0); try lia.
  rewrite !Z.min_l by lia. reflexivity.
Qed.

(** X11.  A range of a string can be measured in two parts: for offsets
    [0 <= i <= j <= k <= len(s)], the width of [s] from [i] to [k] is the
    width from [i] to [j] plus the width from [j] to [k]. *)
Theorem string_width_splits (s : str) (i j k : Z) :
  0 <= i <= j -> j <= k <= len s ->
  string_width (TStr s) i (Some k) =
  x ← string_width (TStr s) i (Some j);
  y ← string_width (TStr s) j (Some k);
  Ret (x + y).
Proof.
  intros Hij Hjk. unfold Calc_String_Width. cbn [text_len].
  destruct (Z.eqb_spec (len s) 0) as [H0 | Hne].
  - assert (i = 0 /\ j = 0 /\ k = 0) as (-> & -> & ->) by lia. reflexivity.
  - destruct (Z.gtb_spec i k), (Z.gtb_spec i j), (Z.gtb_spec j k); try lia.
    rewrite !py_slice_inside by lia.
    replace (Z.to_nat (k - i)) with (Z.to_nat (j - i) + Z.to_nat (k - j))%nat
      by lia.
    rewrite <- take_take_drop, drop_drop.
    replace (Z.to_nat i + Z.to_nat (j - i))%nat with (Z.to_nat j) by lia.
    unfold chars. rewrite fmap_app. apply sum_over_app.
Qed.

Lemma widths_bounds (s : str) w :
  widths s = Ret w -> 0 <= w <= 2 * len s.
Proof.
  revert w. induction s as [| c s IH]; intros w H.
  - injection H as <-. unfold len. cbn. lia.
  - cbn [chars fmap list_fmap sum_over] in H.
    apply bind_ret in H as (cw & Hcw & H).
    apply bind_ret in H as (w' & Hw' & H). injection H as <-.
    apply Calc_Char_Width_range in Hcw. apply IH in Hw'.
    unfold len in *. cbn [length]. lia.
Qed.

(** X12.  Whenever [Calc_String_Width] returns for a [str], with whatever
    offsets, the width is not negative and is at most twice the number of
    characters of the string. *)
Theorem string_width_bounds (s : str) start_offs end_offs w :
  string_width (TStr s) start_offs end_offs = Ret w ->
  0 <= w <= 2 * len s.
Proof.
  unfold Calc_String_Width. cbn [text_len].
  destruct (Z.eqb_spec (len s) 0) as [H0 | Hne];
    [intros [= <-]; lia |].
  destruct (_ >? _); [discriminate |]. intros H.
  apply widths_bounds in H.
  assert (len (py_slice s (Some start_offs)
                 (Some (match end_offs with
                        | None => len s
                        | Some e => e
                        end))) <= len s); [| lia].
  unfold py_slice, len. rewrite length_take, length_drop. lia.
Qed.

(** *** With well-formed tables *)

Section WellFormed.

Variable version : str.
Variable zero_table wide_table : list (Z * Z).
Hypothesis resolved :
  _wcmatch_version UNICODE_VERSIONS environ py_int (lit "auto") = Ret version.
Hypothesis zero_found : ZERO_WIDTH !! version = Some zero_table.
Hypothesis wide_found : WIDE_EASTASIAN !! version = Some wide_table.
Hypothesis zero_ok : zero_table <> [] /\ table_sorted zero_table.
Hypothesis wide_ok : wide_table <> [] /\ table_sorted wide_table.

Lemma char_width_class (c : Z) :
  char_width [c] = Ret (width_class ZERO_WIDTH_CF zero_table wide_table c).
Proof.
  unfold Calc_Char_Width, width_class.
  destruct (bool_decide ([c] ∈ override_set)); [reflexivity |].
  unfold _wcwidth. cbn [ord]. rewrite ret_bind.
  destruct (bool_decide (c ∈ ZERO_WIDTH_CF)); [reflexivity |].
  destruct (_ || _); [reflexivity |].
  rewrite resolved, ret_bind. unfold dict_item.
  rewrite zero_found, wide_found, !ret_bind.
  rewrite (bisearch_membership c zero_table (proj1 zero_ok) (proj2 zero_ok)).
  rewrite ret_bind.
  destruct (in_table c zero_table); [reflexivity |]. cbn [Z.eqb negb].
  rewrite (bisearch_membership c wide_table (proj1 wide_ok) (proj2 wide_ok)).
  rewrite ret_bind. destruct (in_table c wide_table); reflexivity.
Qed.

(** X13.  With tables that are well formed ('auto' resolves to a version,
    both tables have an entry for it, and the two tables are not empty and
    sorted), [Calc_Char_Width] returns for every single character, and the
    width is the one read off the tables: 2 for the override list, else 0
    for a zero-width format character, a control character or a member of
    the zero-width table, else 2 for a member of the wide table, else 1. *)
Theorem char_width_is_class (c : Z) :
  char_width [c] = Ret (width_class ZERO_WIDTH_CF zero_table wide_table c).
Proof. exact (char_width_class c). Qed.

Lemma widths_total (l : str) :
  widths l =
  Ret (total (width_class ZERO_WIDTH_CF zero_table wide_table <$> l)).
Proof.
  induction l as [| c l IH]; [reflexivity |].
  cbn [chars fmap list_fmap sum_over].
  rewrite char_width_class, ret_bind. unfold chars in IH.
  rewrite IH. reflexivity.
Qed.

(** X14.  With well-formed tables [Calc_String_Width] never fails on a
    [str] except for the invalid range: it returns 0 for the empty string,
    raises [ValueError] when [start_offs > end_offs], and otherwise returns
    the sum of the widths, read off the tables, of the characters of
    [text[start_offs:end_offs]]. *)
Theorem string_width_is_total_of_classes (s : str) start_offs end_offs :
  string_width (TStr s) start_offs end_offs =
    if len s =? 0 then Ret 0
    else if start_offs >? default (len s) end_offs then Raise ValueError
    else Ret (total (width_class ZERO_WIDTH_CF zero_table wide_table <$>
                       py_slice s (Some start_offs)
                         (Some (default (len s) end_offs)))).
Proof.
  unfold Calc_String_Width. cbn [text_len].
  destruct (len s =? 0); [reflexivity |].
  replace (match end_offs with None => len s | Some e => e end)
    with (default (len s) end_offs) by (destruct end_offs; reflexivity).
  destruct (_ >? _); [reflexivity |]. apply widths_total.
Qed.

End WellFormed.

End WidthFurther.

(** ** Version resolution, continued *)

Lemma tuple_ltb_trans a : forall b c,
  tuple_ltb a b = true -> tuple_ltb b c = true -> tuple_ltb a c = true.
Proof.
  induction a as [| x a IH]; intros [| y b] [| z c]; cbn; try congruence.
  destruct (Z.ltb_spec x y), (Z.ltb_spec y x), (Z.ltb_spec y z),
    (Z.ltb_spec z y), (Z.ltb_spec x z), (Z.ltb_spec z x);
    try congruence; try lia.
  apply IH.
Qed.

Lemma ascending_above prev tuples :
  ascending prev tuples -> forall t, t ∈ tuples -> tuple_ltb prev t = true.
Proof.
  revert prev. induction tuples as [| t r IH]; intros prev H u Hu;
    [inversion Hu |].
  destruct H as [Hpt Hr]. apply elem_of_cons in Hu as [-> | Hu];
    [exact Hpt |].
  apply (tuple_ltb_trans _ t); [exact Hpt | apply (IH t Hr u Hu)].
Qed.

Lemma py_index_elem {A} (l : list A) i x : py_index l i = Ret x -> x ∈ l.
Proof.
  unfold py_index. destruct (_ && _); [| discriminate].
  destruct (l !! _) eqn:Hx; [| discriminate].
  intros [= <-]. eapply list_elem_of_lookup_2, Hx.
Qed.

(** The nearest version, on versions in ascending order: the request is a
    prefix of its tuple, or it is the greatest version below the request. *)
Lemma nearest_greatest g : forall rest tuples before tb,
  length rest = length tuples ->
  tuple_ltb tb g = true -> ascending tb tuples ->
  exists t,
    (nearest g before (zip rest tuples), t) ∈ (before, tb) :: zip rest tuples /\
    (g `prefix_of` t \/ tuple_ltb t g = true) /\
    (forall u, u ∈ tb :: tuples -> tuple_ltb u g = true ->
               tuple_ltb t u = false).
Proof.
  induction rest as [| v rest IH]; intros tuples before tb Hlen Hb Hasc.
  - destruct tuples; [| discriminate]. exists tb. cbn. split; [left |].
    split; [right; exact Hb |].
    intros u Hu _. apply elem_of_cons in Hu as [-> | Hu];
      [apply tuple_ltb_irrefl | inversion Hu].
  - destruct tuples as [| t tuples]; [discriminate |].
    injection Hlen as Hlen. destruct Hasc as [Hbt Hasc].
    cbn [zip zip_with nearest].
    destruct (tuple_ltb t g) eqn:Htg.
    + destruct (IH tuples v t Hlen Htg Hasc) as (t' & Hin & Hnear & Hmax).
      exists t'. split; [right; exact Hin |]. split; [exact Hnear |].
      intros u Hu Hug. apply elem_of_cons in Hu as [-> | Hu];
        [| apply Hmax; assumption].
      destruct (tuple_ltb t' tb) eqn:Ht'; [| reflexivity].
      specialize (Hmax t (list_elem_of_here _ _) Htg).
      rewrite (tuple_ltb_trans _ _ _ Ht' Hbt) in Hmax. discriminate.
    + assert (forall u, u ∈ tb :: t :: tuples -> tuple_ltb u g = true ->
                        u = tb) as Honly.
      { intros u Hu Hug. apply elem_of_cons in Hu as [-> | Hu];
          [reflexivity |].
        apply elem_of_cons in Hu as [-> | Hu]; [congruence |].
        pose proof (ascending_above _ _ Hasc u Hu) as Htu.
        rewrite (tuple_ltb_trans _ _ _ Htu Hug) in Htg. discriminate. }
      destruct (bool_decide (g `prefix_of` t)) eqn:Hpre.
      * exists t. split; [right; left |].
        split; [left; apply (bool_decide_eq_true_1 _ Hpre) |].
        intros u Hu Hug. rewrite (Honly u Hu Hug).
        apply tuple_ltb_asym, Hbt.
      * exists tb. split; [left |]. split; [right; exact Hb |].
        intros u Hu Hug. rewrite (Honly u Hu Hug). apply tuple_ltb_irrefl.
Qed.

Lemma nearest_all_below g : forall rest tuples before,
  length rest = length tuples ->
  (forall t, t ∈ tuples -> tuple_ltb t g = true) ->
  last (before :: rest) = Some (nearest g before (zip rest tuples)).
Proof.
  induction rest as [| v rest IH]; intros tuples before Hlen Hall.
  - destruct tuples; [reflexivity | discriminate].
  - destruct tuples as [| t tuples]; [discriminate |].
    injection Hlen as Hlen. cbn [zip zip_with nearest].
    rewrite (Hall t (list_elem_of_here _ _)).
    rewrite <- (IH tuples v Hlen); [reflexivity |].
    intros u Hu. apply Hall, list_elem_of_further, Hu.
Qed.

Section VersionFurther.

Variable UNICODE_VERSIONS : list str.
Variable py_int : str -> option Z.

Local Abbreviation version_value := (_wcversion_value py_int).
Local Abbreviation scan := (scan_versions UNICODE_VERSIONS py_int).
Local Abbreviation resolve env :=
  (_wcmatch_version UNICODE_VERSIONS env py_int).

Lemma scan_result_member g latest rest :
  forall idx v,
    scan g latest rest idx = Ret v ->
    v ∈ rest \/ v ∈ UNICODE_VERSIONS \/ v = latest.
Proof.
  induction rest as [| u rest IH]; intros idx v; cbn; [discriminate |].
  destruct (py_index UNICODE_VERSIONS (idx + 1)) as [nxt | [] |] eqn:Hnxt;
    try discriminate; [| intros [= <-]; auto].
  apply py_index_elem in Hnxt.
  destruct (version_value nxt) as [t | |]; cbn; try discriminate.
  destruct (tuple_eqb _ _); [intros [= <-]; auto |].
  destruct (tuple_ltb _ _); [intros [= <-]; left; apply list_elem_of_here |].
  intros H. apply IH in H as [H | H]; [left; apply list_elem_of_further, H | auto].
Qed.

(** What is returned is a tabulated version, whatever the list holds. *)
Lemma resolve_member env given v :
  resolve env given = Ret v -> v ∈ UNICODE_VERSIONS.
Proof.
  unfold _wcmatch_version. intros H.
  apply bind_ret in H as (latest & Hlatest & H).
  apply py_index_elem in Hlatest.
  destruct (str_eqb _ (lit "latest")); [injection H as <-; exact Hlatest |].
  destruct (bool_decide _) eqn:Hmem;
    [injection H as <-; apply bool_decide_eq_true_1 in Hmem; exact Hmem |].
  match type of H with
  | context [_wcversion_value py_int ?r] =>
      destruct (version_value_outcome py_int r) as [[g Hg] | Hg];
      rewrite Hg in H
  end; [| injection H as <-; exact Hlatest].
  apply bind_ret in H as (earliest & Hearliest & H).
  apply py_index_elem in Hearliest.
  apply bind_ret in H as (t0 & _ & H).
  destruct (tuple_leb g t0); [injection H as <-; exact Hearliest |].
  apply scan_result_member in H as [H | [H | ->]]; assumption.
Qed.

(** X15.  Resolution is idempotent: when neither 'auto' nor 'latest' is the
    name of a tabulated version, the version that [_wcmatch_version]
    returns for a request resolves to itself, in every environment. *)
Theorem resolve_idempotent env env' given v :
  lit "auto" ∉ UNICODE_VERSIONS -> lit "latest" ∉ UNICODE_VERSIONS ->
  resolve env given = Ret v -> resolve env' v = Ret v.
Proof.
  intros Hauto Hlatest H.
  pose proof (resolve_member _ _ _ H) as Hv.
  unfold _wcmatch_version in *.
  apply bind_ret in H as (latest & -> & _). rewrite ret_bind.
  unfold str_eqb.
  rewrite (bool_decide_eq_false_2 (v = lit "auto")) by congruence.
  rewrite (bool_decide_eq_false_2 (v = lit "latest")) by congruence.
  rewrite (bool_decide_eq_true_2 _ Hv). reflexivity.
Qed.

(** X16.  The environment is read for 'auto' only.  A request other than
    'auto' resolves alike in all environments; 'auto' resolves like the
    value of UNICODE_VERSION when that is set to something else than
    'auto', and like 'latest' when it is not set; and when it is set to
    'auto', which is not a version and which [int] rejects, 'auto' resolves
    like 'latest' too. *)
Theorem resolve_reads_environment_for_auto env env' :
  (forall given, given <> lit "auto" -> resolve env given = resolve env' given) /\
  (forall x, env !! UNICODE_VERSION = Some x -> x <> lit "auto" ->
             resolve env (lit "auto") = resolve env' x) /\
  (env !! UNICODE_VERSION = None ->
   resolve env (lit "auto") = resolve env' (lit "latest")) /\
  (env !! UNICODE_VERSION = Some (lit "auto") ->
   lit "auto" ∉ UNICODE_VERSIONS -> py_int (lit "auto") = None ->
   resolve env (lit "auto") = resolve env' (lit "latest")).
Proof.
  unfold _wcmatch_version, UNICODE_VERSION, str_eqb. repeat split.
  - intros given Hne. rewrite (bool_decide_eq_false_2 _ Hne). reflexivity.
  - intros x Hx Hne. rewrite Hx, (bool_decide_eq_false_2 _ Hne).
    rewrite (bool_decide_eq_true_2 (lit "auto" = lit "auto")) by reflexivity.
    reflexivity.
  - intros Hx. rewrite Hx.
    rewrite (bool_decide_eq_true_2 (lit "auto" = lit "auto")) by reflexivity.
    rewrite (bool_decide_eq_false_2 (lit "latest" = lit "auto"))
      by discriminate.
    reflexivity.
  - intros Hx Hmem Hint. rewrite Hx.
    rewrite (bool_decide_eq_true_2 (lit "auto" = lit "auto")) by reflexivity.
    rewrite (bool_decide_eq_false_2 (lit "latest" = lit "auto"))
      by discriminate.
    change (default (lit "latest") (Some (lit "auto"))) with (lit "auto").
    rewrite (bool_decide_eq_false_2 (lit "auto" = lit "latest"))
      by discriminate.
    rewrite (bool_decide_eq_true_2 (lit "latest" = lit "latest"))
      by reflexivity.
    rewrite (bool_decide_eq_false_2 _ Hmem).
    assert (version_value (lit "auto") = Raise ValueError) as ->.
    { unfold _wcversion_value.
      change (split_dot (lit "auto")) with [lit "auto"].
      cbn [ints]. rewrite Hint. reflexivity. }
    reflexivity.
Qed.

Section Walk.

Variable env : gmap (list Z) (list Z).
Variables (given : str) (earliest latest : str) (rest : list str).
Hypothesis versions_are : UNICODE_VERSIONS = earliest :: rest.
Hypothesis latest_is : last UNICODE_VERSIONS = Some latest.
Hypothesis not_auto : given <> lit "auto".
Hypothesis not_latest : given <> lit "latest".
Hypothesis not_tabulated : given ∉ UNICODE_VERSIONS.

(** The request reaches the parsing step. *)
Lemma resolve_parses :
  resolve env given =
  match version_value given with
  | Ret cmp_given =>
      cmp_earliest ← version_value earliest;
      if tuple_leb cmp_given cmp_earliest then Ret earliest
      else scan cmp_given latest (earliest :: rest) 0
  | Raise ValueError => Ret latest
  | Raise e => Raise e
  | OutOfFuel => OutOfFuel
  end.
Proof.
  unfold _wcmatch_version.
  rewrite (py_index_last _ _ latest_is), ret_bind.
  unfold str_eqb. rewrite (bool_decide_eq_false_2 _ not_auto).
  rewrite (bool_decide_eq_false_2 _ not_latest).
  rewrite (bool_decide_eq_false_2 _ not_tabulated).
  rewrite (py_index_first UNICODE_VERSIONS earliest)
    by (rewrite versions_are; reflexivity).
  destruct (version_value given) as [g | |]; try reflexivity.
  rewrite ret_bind.
  replace (scan g latest UNICODE_VERSIONS 0)
    with (scan g latest (earliest :: rest) 0) by (f_equal; congruence).
  reflexivity.
Qed.

Lemma resolve_walk g t0 tuples :
  version_value given = Ret g -> version_value earliest = Ret t0 ->
  Forall2 (λ v t, version_value v = Ret t) rest tuples ->
  tuple_ltb t0 g = true ->
  resolve env given = Ret (nearest g earliest (zip rest tuples)).
Proof.
  intros Hg Ht0 Hall Hlt. rewrite resolve_parses, Hg, Ht0, ret_bind.
  unfold tuple_leb, tuple_eqb.
  rewrite (tuple_ltb_asym _ _ Hlt), bool_decide_eq_false_2.
  - apply (scan_from_start UNICODE_VERSIONS py_int g latest _ _ _
             versions_are latest_is Hall).
  - intros ->. rewrite tuple_ltb_irrefl in Hlt. discriminate.
Qed.

(** X17.  Requests outside the tabulated versions fall back as follows: a
    request that does not parse resolves to the latest version; a request
    whose tuple is at most the tuple of the earliest version resolves to
    the earliest version; a request whose tuple is above the tuples of all
    versions resolves to the latest version. *)
Theorem resolve_fallbacks :
  (version_value given = Raise ValueError -> resolve env given = Ret latest) /\
  (forall g t0,
     version_value given = Ret g -> version_value earliest = Ret t0 ->
     tuple_leb g t0 = true -> resolve env given = Ret earliest) /\
  (forall g t0 tuples,
     version_value given = Ret g -> version_value earliest = Ret t0 ->
     Forall2 (λ v t, version_value v = Ret t) rest tuples ->
     (forall t, t ∈ t0 :: tuples -> tuple_ltb t g = true) ->
     resolve env given = Ret latest).
Proof.
  repeat split.
  - intros Hg. rewrite resolve_parses, Hg. reflexivity.
  - intros g t0 Hg Ht0 Hle. rewrite resolve_parses, Hg, Ht0, ret_bind, Hle.
    reflexivity.
  - intros g t0 tuples Hg Ht0 Hall Hbelow.
    rewrite (resolve_walk g t0 tuples Hg Ht0 Hall)
      by (apply Hbelow, list_elem_of_here).
    f_equal.
    pose proof (nearest_all_below g rest tuples earliest
                  (Forall2_length _ _ _ Hall)) as Hlast.
    rewrite <- versions_are, latest_is in Hlast.
    symmetry. injection Hlast; [trivial |].
    intros t Ht. apply Hbelow, list_elem_of_further, Ht.
Qed.

(** X18.  On versions tabulated in ascending order, a parsed request above
    the earliest version resolves to the version it is a prefix of, or else
    to the greatest tabulated version below it: no tabulated version lies
    between the version returned and the request. *)
Theorem resolve_greatest_below g t0 tuples :
  version_value given = Ret g -> version_value earliest = Ret t0 ->
  Forall2 (λ v t, version_value v = Ret t) rest tuples ->
  tuple_ltb t0 g = true -> ascending t0 tuples ->
  exists v t,
    resolve env given = Ret v /\
    (v, t) ∈ (earliest, t0) :: zip rest tuples /\
    (g `prefix_of` t \/ tuple_ltb t g = true) /\
    (forall u, u ∈ t0 :: tuples -> tuple_ltb u g = true ->
               tuple_ltb t u = false).
Proof.
  intros Hg Ht0 Hall Hlt Hasc.
  destruct (nearest_greatest g rest tuples earliest t0
              (Forall2_length _ _ _ Hall) Hlt Hasc) as (t & Hin & Hnear & Hmax).
  exists (nearest g earliest (zip rest tuples)), t.
  split; [apply (resolve_walk g t0 tuples Hg Ht0 Hall Hlt) |].
  split; [exact Hin |]. split; assumption.
Qed.

End Walk.

End VersionFurther.

(** ** Cutting and padding, continued *)

Lemma concat_replicate_comm {A} (k : nat) (p : list A) :
  concat (replicate k p) ++ p = p ++ concat (replicate k p).
Proof.
  induction k as [| k IH]; cbn; [rewrite app_nil_r; reflexivity |].
  rewrite <- app_assoc, IH. reflexivity.
Qed.

Section FitFurther.

Variable UNICODE_VERSIONS : list str.
Variable ZERO_WIDTH_CF : gset Z.
Variable ZERO_WIDTH WIDE_EASTASIAN : gmap (list Z) (list (Z * Z)).
Variable environ : gmap (list Z) (list Z).
Variable py_int : str -> option Z.

Local Abbreviation tables f :=
  (f UNICODE_VERSIONS ZERO_WIDTH_CF ZERO_WIDTH WIDE_EASTASIAN environ py_int)
  (only parsing).
Local Abbreviation widths s := (sum_over (tables Calc_Char_Width) (chars s)).
Local Abbreviation fit := (tables Cut_And_Pad_String).
Local Abbreviation cut := (tables cut_loop).
Local Abbreviation pad := (tables pad_loop).

Variable n : Z.

(** X19.  With alignments 'left' or 'right', a target width that is not
    negative and a pad string of width 1, [Cut_And_Pad_String] returns
    (given rounds enough for its loop) a string whose width is the target or
    one less, and is the target whenever the string was not wider than it. *)
Theorem fit_width_is_target_or_one_less string w cut_align pad_align
    pad_char fuel :
  0 <= n ->
  cut_align = lit "left" \/ cut_align = lit "right" ->
  pad_align = lit "left" \/ pad_align = lit "right" ->
  widths pad_char = Ret 1 ->
  widths string = Ret w ->
  (length string <= fuel)%nat -> (Z.to_nat (n - w) <= fuel)%nat ->
  exists r w',
    fit fuel string n cut_align pad_align pad_char = Ret r /\
    widths r = Ret w' /\ n - 1 <= w' <= n /\ (w <= n -> w' = n).
Proof. intros Hn. apply (tables fit_width_bounds n Hn). Qed.

Lemma pad_right_shape pad_char :
  widths pad_char = Ret 1 ->
  forall k s w fuel,
    widths s = Ret w -> w <= n -> Z.to_nat (n - w) = k -> (k <= fuel)%nat ->
    pad fuel s n (lit "right") pad_char
    = Ret (s ++ concat (replicate k pad_char)).
Proof.
  intros Hpad.
  induction k as [| k IH]; intros s w fuel Hw Hle Hk Hfuel;
    rewrite (tables pad_loop_eq), (tables string_width_str), Hw, ret_bind.
  - rewrite (proj2 (Z.ltb_ge w n)) by lia. cbn. rewrite app_nil_r. reflexivity.
  - rewrite (proj2 (Z.ltb_lt w n)) by lia.
    destruct fuel as [| fuel]; [lia |].
    rewrite str_left_right, str_eqb_refl.
    rewrite (IH (s ++ pad_char) (w + 1) fuel);
      [| apply (tables widths_app); assumption | lia | lia | lia].
    cbn [replicate concat]. rewrite <- app_assoc. reflexivity.
Qed.

Lemma pad_left_shape pad_char :
  widths pad_char = Ret 1 ->
  forall k s w fuel,
    widths s = Ret w -> w <= n -> Z.to_nat (n - w) = k -> (k <= fuel)%nat ->
    pad fuel s n (lit "left") pad_char
    = Ret (concat (replicate k pad_char) ++ s).
Proof.
  intros Hpad.
  induction k as [| k IH]; intros s w fuel Hw Hle Hk Hfuel;
    rewrite (tables pad_loop_eq), (tables string_width_str), Hw, ret_bind.
  - rewrite (proj2 (Z.ltb_ge w n)) by lia. reflexivity.
  - rewrite (proj2 (Z.ltb_lt w n)) by lia.
    destruct fuel as [| fuel]; [lia |].
    rewrite str_eqb_refl.
    rewrite (IH (pad_char ++ s) (1 + w) fuel);
      [| apply (tables widths_app); assumption | lia | lia | lia].
    cbn [replicate concat].
    rewrite app_assoc, concat_replicate_comm. reflexivity.
Qed.

(** X20.  A string of width [w] not above the target is returned with
    [length - w] copies of a pad string of width 1 added, after the string
    for 'right' and before it for 'left', whatever [cut_align] is; the
    characters of the string are kept as they are. *)
Theorem fit_pads_with_copies string w cut_align pad_char fuel :
  widths pad_char = Ret 1 -> widths string = Ret w -> w <= n ->
  (Z.to_nat (n - w) <= fuel)%nat ->
  fit fuel string n cut_align (lit "right") pad_char
    = Ret (string ++ concat (replicate (Z.to_nat (n - w)) pad_char)) /\
  fit fuel string n cut_align (lit "left") pad_char
    = Ret (concat (replicate (Z.to_nat (n - w)) pad_char) ++ string).
Proof.
  intros Hpad Hw Hle Hfuel. unfold Cut_And_Pad_String.
  rewrite (tables string_width_str), Hw, !ret_bind.
  destruct (Z.gtb_spec w n) as [? | _]; [lia |].
  destruct (Z.ltb_spec w n) as [Hlt | Hge].
  - split;
      [apply (pad_right_shape pad_char Hpad _ string w fuel Hw Hle eq_refl Hfuel)
      | apply (pad_left_shape pad_char Hpad _ string w fuel Hw Hle eq_refl Hfuel)].
  - replace (Z.to_nat (n - w)) with 0%nat by lia. cbn.
    rewrite app_nil_r. split; reflexivity.
Qed.

Lemma widths_drop_defined (s : str) w (j : nat) :
  widths s = Ret w -> exists wj, widths (drop j s) = Ret wj.
Proof.
  revert s w. induction j as [| j IH]; intros s w Hw; [eauto |].
  destruct s as [| c s]; [eauto |].
  apply (tables widths_cons_inv) in Hw as (cw & w' & _ & Hw' & _).
  apply (IH s w' Hw').
Qed.

Lemma cut_left_shape (Hn : 0 <= n) (s : str) :
  forall fuel w,
    widths s = Ret w -> (length s <= fuel)%nat ->
    exists k w',
      cut fuel s n (lit "left") = Ret (drop k s) /\
      widths (drop k s) = Ret w' /\ w' <= n /\
      (forall j wj, (j < k)%nat -> widths (drop j s) = Ret wj -> n < wj).
Proof.
  induction s as [| c s IH]; intros fuel w Hw Hfuel.
  - exists 0%nat, 0. injection Hw as <-.
    rewrite (tables cut_widths_stop n fuel [] _ 0 eq_refl Hn).
    repeat split; [exact Hn | intros; lia].
  - destruct (Z.le_gt_cases w n) as [Hle | Hgt].
    { exists 0%nat, w. rewrite (tables cut_widths_stop n fuel _ _ w Hw Hle).
      repeat split; [assumption | assumption | intros; lia]. }
    destruct fuel as [| fuel]; [cbn in Hfuel; lia |].
    rewrite (tables cut_widths_round n fuel (c :: s) _ w Hw Hgt).
    rewrite str_eqb_refl, py_slice_tail.
    pose proof Hw as Hw0.
    apply (tables widths_cons_inv) in Hw0 as (cw & w0 & _ & Hw0 & _ & _).
    destruct (IH fuel w0 Hw0) as (k & w' & Hcut & Hw' & Hle' & Hmin);
      [cbn in Hfuel; lia |].
    exists (S k), w'. repeat split; try assumption.
    intros j wj Hj Hwj. destruct j as [| j].
    + cbn [drop] in Hwj. congruence.
    + apply (Hmin j wj); [lia | exact Hwj].
Qed.

Lemma widths_take_defined (s : str) w (j : nat) :
  widths s = Ret w -> exists wj, widths (take j s) = Ret wj.
Proof.
  revert j w. induction s as [| c s IH]; intros [| j] w Hw; cbn [take];
    eauto.
  apply (tables widths_cons_inv) in Hw as (cw & w' & Hcw & Hw' & _).
  destruct (IH j w' Hw') as [wj Hwj].
  exists (cw + wj). apply (tables widths_cons); assumption.
Qed.

Lemma cut_right_shape (Hn : 0 <= n) (s : str) :
  forall fuel w,
    widths s = Ret w -> (length s <= fuel)%nat ->
    exists k w',
      (k <= length s)%nat /\
      cut fuel s n (lit "right") = Ret (take k s) /\
      widths (take k s) = Ret w' /\ w' <= n /\
      (forall j wj, (k < j <= length s)%nat ->
                    widths (take j s) = Ret wj -> n < wj).
Proof.
  induction s as [| c s IH] using rev_ind; intros fuel w Hw Hfuel.
  - exists 0%nat, 0. injection Hw as <-.
    rewrite (tables cut_widths_stop n fuel [] _ 0 eq_refl Hn).
    repeat split; [cbn; lia | exact Hn | cbn; intros; lia].
  - destruct (Z.le_gt_cases w n) as [Hle | Hgt].
    { exists (length (s ++ [c])), w.
      rewrite (tables cut_widths_stop n fuel _ _ w Hw Hle), firstn_all.
      repeat split; [lia | assumption | assumption | intros; lia]. }
    rewrite length_app in *. cbn [length] in *.
    destruct fuel as [| fuel]; [lia |].
    rewrite (tables cut_widths_round n fuel (s ++ [c]) _ w Hw Hgt).
    rewrite str_left_right, str_eqb_refl, py_slice_init.
    pose proof Hw as Hw0.
    apply (tables widths_snoc_inv) in Hw0 as (cw & w0 & _ & Hw0 & _ & _).
    destruct (IH fuel w0 Hw0) as (k & w' & Hk & Hcut & Hw' & Hle' & Hmax);
      [lia |].
    exists k, w'. rewrite take_app_le by lia.
    repeat split; try assumption; [lia |].
    intros j wj Hj Hwj.
    destruct (Nat.eq_dec j (length s + 1)%nat) as [-> | Hne].
    + rewrite take_ge in Hwj by (rewrite length_app; cbn; lia). congruence.
    + rewrite take_app_le in Hwj by lia. apply (Hmax j wj); [lia | exact Hwj].
Qed.

(** X21.  A string wider than a target that is not negative is cut by the
    fewest characters that bring its width down to the target or below:
    'left' returns the longest suffix of the string whose width is at most
    the target, 'right' the longest prefix; what is left is not padded. *)
Theorem fit_cuts_the_fewest string w pad_align pad_char fuel :
  0 <= n -> widths string = Ret w -> n < w ->
  (length string <= fuel)%nat ->
  (exists k w',
     fit fuel string n (lit "left") pad_align pad_char = Ret (drop k string) /\
     widths (drop k string) = Ret w' /\ w' <= n /\
     (forall j wj, (j < k)%nat -> widths (drop j string) = Ret wj -> n < wj)) /\
  (exists k w',
     (k <= length string)%nat /\
     fit fuel string n (lit "right") pad_align pad_char = Ret (take k string) /\
     widths (take k string) = Ret w' /\ w' <= n /\
     (forall j wj, (k < j <= length string)%nat ->
                   widths (take j string) = Ret wj -> n < wj)).
Proof.
  intros Hn Hw Hgt Hfuel. unfold Cut_And_Pad_String.
  rewrite (tables string_width_str), Hw, !ret_bind.
  destruct (Z.gtb_spec w n) as [_ | ?]; [| lia].
  split;
    [apply (cut_left_shape Hn string fuel w Hw Hfuel)
    | apply (cut_right_shape Hn string fuel w Hw Hfuel)].
Qed.

End FitFurther.

(** ** The further properties on the sample instance *)

Section FurtherInstances.

Import Sample.

Local Abbreviation sample f :=
  (f versions zero_width_cf zero_width wide_eastasian no_environ int_decimal)
  (only parsing).

Ltac run := vm_compute; first [reflexivity | discriminate].

Lemma wide_ranges_sorted : wide_ranges <> [] /\ table_sorted wide_ranges.
Proof. split; [discriminate | apply table_sortedb_spec; reflexivity]. Qed.

Lemma zero_ranges_sorted : zero_ranges <> [] /\ table_sorted zero_ranges.
Proof. split; [discriminate | apply table_sortedb_spec; reflexivity]. Qed.

(** X1 on the wide ranges: an ideograph is found, a letter is not. *)
Lemma bisearch_is_membership_wide :
  _bisearch 0x6C38 wide_ranges = Ret 1 /\ _bisearch 0x41 wide_ranges = Ret 0.
Proof.
  destruct wide_ranges_sorted as [Hne Hsorted]. split.
  - exact (bisearch_is_membership 0x6C38 wide_ranges Hne Hsorted).
  - exact (bisearch_is_membership 0x41 wide_ranges Hne Hsorted).
Defined.

(** X2 on a table that is not sorted. *)
Lemma bisearch_sound_on_any_table_unsorted :
  exists r, _bisearch 3 [(10, 20); (1, 5)] = Ret r /\
            (r = 0 \/ r = 1 /\ in_table 3 [(10, 20); (1, 5)] = true).
Proof.
  exact (proj1 (bisearch_sound_on_any_table 3 [(10, 20); (1, 5)])
           ltac:(discriminate)).
Defined.

(** X3: three rounds for the six wide ranges. *)
Lemma bisearch_loop_is_logarithmic_wide :
  finishes (_bisearch_loop 3 0x6C38 wide_ranges 0 5) /\
  _bisearch_loop 3 0x6C38 wide_ranges 0 5 =
    _bisearch_loop (length wide_ranges) 0x6C38 wide_ranges 0 5.
Proof.
  exact (bisearch_loop_is_logarithmic 0x6C38 wide_ranges 3 0 5
           ltac:(lia) ltac:(run) ltac:(run)).
Defined.

(** X4 on the empty buffer and at the end of a string. *)
Lemma decode_outside_raises_empty :
  _decode_one (TBytes []) 0 = Raise ValueError /\
  _decode_one (TStr (lit "ab")) 2 = Raise ValueError.
Proof.
  assert (text_len (TBytes []) <= 0 \/ 0 < - text_len (TBytes [])) as H1
    by (left; run).
  assert (text_len (TStr (lit "ab")) <= 2 \/ 2 < - text_len (TStr (lit "ab")))
    as H2 by (left; run).
  split.
  - exact (decode_outside_raises (TBytes []) 0 H1).
  - exact (decode_outside_raises (TStr (lit "ab")) 2 H2).
Defined.

(** X5 on a byte that starts no sequence. *)
Lemma decode_advances_within_buffer_ff :
  exists o next,
    _decode_one (TBytes [xff; x41]) 0 = Ret (o, next) /\
    0 < next <= len [xff; x41] /\ next <= 0 + 4 /\ 0 <= o < 0x200000.
Proof.
  assert (in_buffer [xff; x41] 0) as Hin by (split; run).
  exact (decode_advances_within_buffer [xff; x41] 0 Hin).
Defined.

(** X6 on the three bytes of U+6C38. *)
Lemma decode_success_consumes_announced_6c38 :
  exists b1 n,
    byte_at [xe6; xb0; xb8] 0 = Some b1 /\ lead_length b1 = Some n /\
    _decode_one (TBytes [xe6; xb0; xb8]) 0 =
      Ret (payload n b1 (following [xe6; xb0; xb8] 0 1)
             (following [xe6; xb0; xb8] 0 2) (following [xe6; xb0; xb8] 0 3),
           0 + n).
Proof.
  assert (in_buffer [xe6; xb0; xb8] 0) as Hin by (split; run).
  assert (~ decode_failure [xe6; xb0; xb8] 0) as Hok.
  { intros [b1 n H1 Hn Hlt | b1 n i c H1 Hn Hi Hc Hbad
           | b1 n H1 Hn Hlen Hlow | b1 H1 Hn];
      vm_compute in H1; injection H1 as <-; vm_compute in Hn;
      try discriminate; injection Hn as <-.
    - vm_compute in Hlt. discriminate.
    - assert (i = 1 \/ i = 2) as [-> | ->] by lia;
        vm_compute in Hc; injection Hc as <-; vm_compute in Hbad;
        discriminate.
    - vm_compute in Hlow. discriminate. }
  exact (decode_success_consumes_announced [xe6; xb0; xb8] 0 Hin Hok).
Defined.

(** X7 on U+6C38 after an 'A'. *)
Lemma decode_inverts_encode_6c38 :
  encode_utf8 0x6C38 = [xe6; xb0; xb8] /\
  _decode_one (TBytes ([x41] ++ encode_utf8 0x6C38 ++ [])) (len [x41])
  = Ret (0x6C38, len [x41] + len (encode_utf8 0x6C38)).
Proof.
  split; [reflexivity |].
  exact (decode_inverts_encode 0x6C38 [x41] [] ltac:(lia)).
Defined.

(** X8 on the empty string and on a string of two characters. *)
Lemma char_width_needs_one_character_empty :
  char_width [] = Raise TypeError /\ char_width (lit "ab") = Raise TypeError.
Proof.
  split.
  - exact (sample char_width_needs_one_character [] ltac:(discriminate)).
  - exact (sample char_width_needs_one_character (lit "ab")
             ltac:(discriminate)).
Defined.

(** X9 on the zero-width space. *)
Lemma zero_width_cf_before_tables_200b : char_width [0x200B] = Ret 0.
Proof.
  assert (0x200B ∈ zero_width_cf) as Hcf
    by (apply (bool_decide_eq_true_1 (0x200B ∈ zero_width_cf)); reflexivity).
  exact (sample zero_width_cf_before_tables 0x200B Hcf).
Defined.

(** X11 on an ideograph followed by two letters. *)
Lemma string_width_splits_sample :
  string_width (TStr [0x6C38; 65; 66]) 0 (Some 3) = Ret 4 /\
  string_width (TStr [0x6C38; 65; 66]) 0 (Some 1) = Ret 2 /\
  string_width (TStr [0x6C38; 65; 66]) 1 (Some 3) = Ret 2.
Proof.
  pose proof (sample string_width_splits [0x6C38; 65; 66] 0 1 3
                ltac:(lia) ltac:(split; run)) as H.
  split; [exact H |]. split; reflexivity.
Defined.

(** X12 on the same string. *)
Lemma string_width_bounds_sample : 0 <= 4 <= 2 * len [0x6C38; 65; 66].
Proof.
  exact (sample string_width_bounds [0x6C38; 65; 66] 0 None 4 ltac:(run)).
Defined.

Lemma sample_resolved : resolve no_environ (lit "auto") = Ret (lit "15.0.0").
Proof. reflexivity. Qed.
Lemma sample_zero_found : zero_width !! lit "15.0.0" = Some zero_ranges.
Proof. reflexivity. Qed.
Lemma sample_wide_found : wide_eastasian !! lit "15.0.0" = Some wide_ranges.
Proof. reflexivity. Qed.

(** X13 on an ideograph, a combining accent and a letter. *)
Lemma char_width_is_class_sample :
  char_width [0x6C38] = Ret 2 /\ char_width [0x0301] = Ret 0 /\
  char_width [0x41] = Ret 1.
Proof.
  pose proof (sample char_width_is_class (lit "15.0.0") zero_ranges
                wide_ranges sample_resolved sample_zero_found
                sample_wide_found zero_ranges_sorted wide_ranges_sorted) as H.
  split; [exact (H 0x6C38) |]. split; [exact (H 0x0301) | exact (H 0x41)].
Defined.

(** X14 on a range of a string. *)
Lemma string_width_is_total_of_classes_sample :
  string_width (TStr [0x6C38; 0x0301; 65; 66]) 0 (Some 3) = Ret 3.
Proof.
  exact (sample string_width_is_total_of_classes (lit "15.0.0") zero_ranges
           wide_ranges sample_resolved sample_zero_found sample_wide_found
           zero_ranges_sorted wide_ranges_sorted [0x6C38; 0x0301; 65; 66] 0
           (Some 3)).
Defined.

Lemma sample_not_tabulated (given : str) :
  bool_decide (given ∈ versions) = false -> given ∉ versions.
Proof. apply bool_decide_eq_false_1. Qed.

(** X15 on the request "9.5". *)
Lemma resolve_idempotent_9_5 :
  resolve no_environ (lit "9.5") = Ret (lit "9.0.0") /\
  resolve (environ_with (lit "12.1")) (lit "9.0.0") = Ret (lit "9.0.0").
Proof.
  split; [reflexivity |].
  exact (resolve_idempotent versions int_decimal no_environ
           (environ_with (lit "12.1")) (lit "9.5") (lit "9.0.0")
           (sample_not_tabulated (lit "auto") eq_refl)
           (sample_not_tabulated (lit "latest") eq_refl) eq_refl).
Defined.

(** X16 with UNICODE_VERSION set to "9.5". *)
Lemma resolve_reads_environment_for_auto_9_5 :
  resolve (environ_with (lit "9.5")) (lit "auto")
  = resolve no_environ (lit "9.5").
Proof.
  exact (proj1 (proj2 (resolve_reads_environment_for_auto versions int_decimal
                         (environ_with (lit "9.5")) no_environ))
           (lit "9.5") eq_refl ltac:(discriminate)).
Defined.

(** X17 on a string that is no version, on "3.0" and on "99". *)
Lemma resolve_fallbacks_sample :
  resolve no_environ (lit "garbage") = Ret (lit "15.0.0") /\
  resolve no_environ (lit "3.0") = Ret (lit "4.1.0") /\
  resolve no_environ (lit "99") = Ret (lit "15.0.0").
Proof.
  split; [| split].
  - exact (proj1 (resolve_fallbacks versions int_decimal no_environ
                    (lit "garbage") (lit "4.1.0") (lit "15.0.0")
                    (tail versions) eq_refl eq_refl ltac:(discriminate)
                    ltac:(discriminate)
                    (sample_not_tabulated (lit "garbage") eq_refl))
             eq_refl).
  - exact (proj1 (proj2 (resolve_fallbacks versions int_decimal no_environ
                    (lit "3.0") (lit "4.1.0") (lit "15.0.0")
                    (tail versions) eq_refl eq_refl ltac:(discriminate)
                    ltac:(discriminate)
                    (sample_not_tabulated (lit "3.0") eq_refl)))
             [3; 0] [4; 1; 0] eq_refl eq_refl eq_refl).
  - refine (proj2 (proj2 (resolve_fallbacks versions int_decimal no_environ
                    (lit "99") (lit "4.1.0") (lit "15.0.0")
                    (tail versions) eq_refl eq_refl ltac:(discriminate)
                    ltac:(discriminate)
                    (sample_not_tabulated (lit "99") eq_refl)))
             [99] [4; 1; 0] (tuple_of <$> tail versions) eq_refl eq_refl _ _).
    + repeat constructor.
    + apply Forall_forall. repeat constructor.
Defined.

(** X18 on the request "9.5": the greatest version below it is "9.0.0". *)
Lemma resolve_greatest_below_9_5 :
  exists v t,
    resolve no_environ (lit "9.5") = Ret v /\
    (v, t) ∈ (lit "4.1.0", [4; 1; 0])
               :: zip (tail versions) (tuple_of <$> tail versions) /\
    ([9; 5] `prefix_of` t \/ tuple_ltb t [9; 5] = true) /\
    (forall u, u ∈ [4; 1; 0] :: (tuple_of <$> tail versions) ->
               tuple_ltb u [9; 5] = true -> tuple_ltb t u = false).
Proof.
  refine (resolve_greatest_below versions int_decimal no_environ
            (lit "9.5") (lit "4.1.0") (lit "15.0.0") (tail versions)
            eq_refl eq_refl ltac:(discriminate) ltac:(discriminate)
            (sample_not_tabulated (lit "9.5") eq_refl)
            [9; 5] [4; 1; 0] (tuple_of <$> tail versions)
            eq_refl eq_refl _ eq_refl _).
  - repeat constructor.
  - vm_compute. repeat split.
Defined.

(** X19 on "AB" padded to five columns. *)
Lemma fit_width_is_target_or_one_less_ab :
  exists r w',
    fit 10 (lit "AB") 5 (lit "left") (lit "right") (lit " ") = Ret r /\
    sum_over char_width (chars r) = Ret w' /\ 5 - 1 <= w' <= 5 /\
    (2 <= 5 -> w' = 5).
Proof.
  exact (sample fit_width_is_target_or_one_less 5 (lit "AB") 2 (lit "left")
           (lit "right") (lit " ") 10%nat ltac:(lia) (or_introl eq_refl)
           (or_intror eq_refl) ltac:(run) ltac:(run) ltac:(cbn; lia)
           ltac:(lia)).
Defined.

(** X20 on "AB" padded to five columns, after and before. *)
Lemma fit_pads_with_copies_ab :
  fit 10 (lit "AB") 5 (lit "left") (lit "right") (lit " ") = Ret (lit "AB   ") /\
  fit 10 (lit "AB") 5 (lit "left") (lit "left") (lit " ") = Ret (lit "   AB").
Proof.
  exact (sample fit_pads_with_copies 5 (lit "AB") 2 (lit "left") (lit " ")
           10%nat ltac:(run) ltac:(run) ltac:(lia) ltac:(lia)).
Defined.

(** X21 on an ideograph between two letters, cut to two columns. *)
Lemma fit_cuts_the_fewest_sample :
  (exists k w',
     fit 10 [65; 0x6C38; 66] 2 (lit "left") (lit "right") (lit " ")
       = Ret (drop k [65; 0x6C38; 66]) /\
     sum_over char_width (chars (drop k [65; 0x6C38; 66])) = Ret w' /\
     w' <= 2 /\
     (forall j wj, (j < k)%nat ->
        sum_over char_width (chars (drop j [65; 0x6C38; 66])) = Ret wj ->
        2 < wj)) /\
  (exists k w',
     (k <= length [65; 0x6C38; 66]%Z)%nat /\
     fit 10 [65; 0x6C38; 66] 2 (lit "right") (lit "right") (lit " ")
       = Ret (take k [65; 0x6C38; 66]) /\
     sum_over char_width (chars (take k [65; 0x6C38; 66])) = Ret w' /\
     w' <= 2 /\
     (forall j wj, (k < j <= length [65; 0x6C38; 66]%Z)%nat ->
        sum_over char_width (chars (take j [65; 0x6C38; 66])) = Ret wj ->
        2 < wj)).
Proof.
  exact (sample fit_cuts_the_fewest 2 [65; 0x6C38; 66] 4 (lit "right")
           (lit " ") 10%nat ltac:(lia) ltac:(run) ltac:(lia)
           ltac:(cbn; lia)).
Defined.

End FurtherInstances.
